(** * eBCSgen: transition systems and rate vectorisation

    A shallow embedding of [TS/TransitionSystem.py] and of the vectoriser of
    [Core/Rate.py].  Python objects that are mutated in place are modelled by
    explicit state passing; Python exceptions by a [result] type; a Python
    [dict] by an association list in insertion order (the order in which
    Python iterates it). *)

From Stdlib Require Import ZArith Ascii String DecimalString.
From stdpp Require Import countable strings base decidable option list.

Local Open Scope Z_scope.

(** ** Exceptions and the state-and-exception monad *)

Inductive exn : Set := KeyError | AttributeError | IndexError | OSError.

Inductive result (A : Type) : Type :=
| Ok (a : A)
| Raise (e : exn).
Arguments Ok {A} a.
Arguments Raise {A} e.

#[global] Instance exn_eq_dec : EqDecision exn.
Proof. solve_decision. Defined.

(** A method body: it runs on the object's state, returns or raises, and
    leaves the object in the state it had when it stopped. *)
Definition M (S A : Type) : Type := S → result A * S.

Definition ret {S A : Type} (a : A) : M S A := λ s, (Ok a, s).

Definition raise {S A : Type} (e : exn) : M S A := λ s, (Raise e, s).

Definition bind {S A B : Type} (m : M S A) (k : A → M S B) : M S B :=
  λ s, match m s with
       | (Ok a, s') => k a s'
       | (Raise e, s') => (Raise e, s')
       end.

Definition get {S : Type} : M S S := λ s, (Ok s, s).

Definition modify {S : Type} (f : S → S) : M S unit := λ s, (Ok tt, f s).

(** [d[k]] and friends return an [option]; [item] turns a miss into the
    exception Python raises. *)
Definition item {S A : Type} (e : exn) (o : option A) : M S A :=
  match o with
  | Some a => ret a
  | None => raise e
  end.

Declare Scope py_scope.
Delimit Scope py_scope with py.
Notation "x <- m ;; k" := (bind m (λ x, k))
  (at level 100, m at next level, right associativity) : py_scope.
Notation "m ;; k" := (bind m (λ _, k))
  (at level 100, right associativity) : py_scope.

(** ** Python's [str] *)

Class Str (A : Type) := str : A → string.
#[global] Hint Mode Str ! : typeclass_instances.

Definition newline : string := String (ascii_of_nat 10) EmptyString.

(** [str] of a Python [int]. *)
#[global] Instance Str_int : Str Z := λ z, NilZero.string_of_int (Z.to_int z).

(** [str] of a one-dimensional numpy array of integers, as numpy prints it
    when all entries have the same width: [[5 5 5]]. *)
Definition join (sep : string) (l : list string) : string :=
  match l with
  | [] => EmptyString
  | x :: xs => fold_left (λ acc y, acc +:+ sep +:+ y) xs x
  end.

#[global] Instance Str_ndarray : Str (list Z) :=
  λ v, "[" +:+ join " " (str <$> v) +:+ "]".

(** ** Python dictionaries

    Keys are compared with [==]; iteration follows insertion order; an
    assignment to a key that is present keeps its position. *)
Module Dict.
Section Dict.
Context {K V : Type} `{EqDecision K}.

Fixpoint get (k : K) (d : list (K * V)) : option V :=
  match d with
  | [] => None
  | (k', v) :: d' => if decide (k' = k) then Some v else get k d'
  end.

Definition mem (k : K) (d : list (K * V)) : bool :=
  match get k d with
  | Some _ => true
  | None => false
  end.

Fixpoint set (k : K) (v : V) (d : list (K * V)) : list (K * V) :=
  match d with
  | [] => [(k, v)]
  | (k', v') :: d' =>
      if decide (k' = k) then (k', v) :: d' else (k', v') :: set k v d'
  end.

Fixpoint del (k : K) (d : list (K * V)) : list (K * V) :=
  match d with
  | [] => []
  | (k', v') :: d' =>
      if decide (k' = k) then d' else (k', v') :: del k d'
  end.

(** A dict comprehension [{k: v for ...}] over the given items. *)
Definition of_items (l : list (K * V)) : list (K * V) :=
  fold_left (λ d kv, set kv.1 kv.2 d) l [].

Definition keys (d : list (K * V)) : list K := d.*1.

Definition values (d : list (K * V)) : list V := d.*2.

End Dict.
End Dict.

(** A Python [set] is a list of its elements; [set(a) == set(b)]. *)
Definition set_eqb {A : Type} `{EqDecision A} (a b : list A) : bool :=
  forallb (λ x, bool_decide (x ∈ b)) a && forallb (λ x, bool_decide (x ∈ a)) b.

(** ** TS.State

    Modelled from the spec: the class [State] of [TS/State.py], which the
    transition system imports: "a fixed-length integer vector indexed by the
    species ordering ... plus a flag marking it as an infinite/overflow
    (hell) state"; "equal vectors (and equal infinity flag) are
    interchangeable". *)
Record State : Type := mkState { sequence : list Z; is_inf : bool }.

#[global] Instance State_eq_dec : EqDecision State.
Proof. solve_decision. Defined.

(** Modelled from the spec: [len(state)], the length of the vector. *)
Definition State_len (s : State) : nat := length (sequence s).

(** Modelled from the spec: [state.is_hell()], "flagged as overflow (hell)". *)
Definition is_hell (s : State) : bool := is_inf s.

(** Modelled from the spec: [state.reorder(indices)], "reordering every
    state's coordinates under that permutation": coordinate [i] of the
    result is coordinate [indices[i]] of the state.  The indices come from
    [create_indices] and are positions of the ordering. *)
Definition reorder (indices : list nat) (s : State) : State :=
  mkState ((λ j, nth j (sequence s) 0) <$> indices) (is_inf s).

(** ** Python's [hash] *)

Class Hash (A : Type) := hash : A → Z.
#[global] Hint Mode Hash ! : typeclass_instances.

(** ** Edge weights

    An edge carries a Python number (an [int], a [float] or a symbolic
    value); the transition system only stores it, compares it, prints it and
    builds the literal [1]. *)
Class Number (P : Type) := {
  Number_eq_dec :: EqDecision P;
  Number_str :: Str P;
  one : P;
  str_one : str one = "1"
}.

#[global] Instance Number_int : Number Z :=
  {| one := 1; str_one := eq_refl |}.

Fixpoint traverse {A B : Type} (f : A → result B) (l : list A) : result (list B) :=
  match l with
  | [] => Ok []
  | x :: l' =>
      match f x with
      | Ok y =>
          match traverse f l' with
          | Ok ys => Ok (y :: ys)
          | Raise e => Raise e
          end
      | Raise e => Raise e
      end
  end.

(** [s.add(x)] on a Python set. *)
Definition set_add {A : Type} `{EqDecision A} (x : A) (s : list A) : list A :=
  if bool_decide (x ∈ s) then s else s ++ [x].

(** [s.add(x)] for every [x] of [l], in this order. *)
Definition set_add_all {A : Type} `{EqDecision A} (l s : list A) : list A :=
  fold_left (λ s x, set_add x s) l s.

Section TransitionSystem.
(** The species ([Complex] objects) are values with an equality; the
    weights are numbers; how a [State] prints is left open. *)
Context {Complex : Type} `{EqDecision Complex}.
Context {P : Type} `{Number P}.
Context {Str_State : Str State}.

(** ** TS.Edge

    An endpoint of an edge is a [State] while the system is being built and
    an integer code once the edge is encoded. *)
Inductive vertex : Type :=
| VState (s : State)
| VCode (c : Z).

#[global] Instance vertex_eq_dec : EqDecision vertex.
Proof. solve_decision. Defined.

(** Modelled from the spec: the class [Edge] of [TS/Edge.py]: "source code,
    target code, a non-negative probability/weight". *)
Record Edge : Type := mkEdge { source : vertex; target : vertex; probability : P }.

#[global] Instance Edge_eq_dec : EqDecision Edge.
Proof. solve_decision. Defined.

#[global] Instance Str_vertex : Str vertex :=
  λ v, match v with
       | VState s => str s
       | VCode c => str c
       end.

(** Modelled from the spec: [str(edge)], one line of the transitions file:
    "{source} {target} {probability}". *)
#[global] Instance Str_Edge : Str Edge :=
  λ e, str (source e) +:+ " " +:+ str (target e) +:+ " " +:+ str (probability e).

(** [encoding[v]] for a dict keyed by states, [decoding[v]] for one keyed by
    codes: an endpoint of the other kind is not a key. *)
Definition state_item (encoding : list (State * Z)) (v : vertex) : option Z :=
  match v with
  | VState s => Dict.get s encoding
  | VCode _ => None
  end.

Definition code_item (decoding : list (Z * State)) (v : vertex) : option State :=
  match v with
  | VState _ => None
  | VCode c => Dict.get c decoding
  end.

(** Modelled from the spec: [edge.encode(encoding)], which "rewrites every
    edge to reference codes"; a state that has no code is a [KeyError] and
    leaves the edge as it was. *)
Definition Edge_encode (encoding : list (State * Z)) (e : Edge) : result Edge :=
  match state_item encoding (source e), state_item encoding (target e) with
  | Some s, Some t => Ok (mkEdge (VCode s) (VCode t) (probability e))
  | _, _ => Raise KeyError
  end.

(** Modelled from the spec: [edge.recode(encoding_old, encoding_new)], which
    "rewrites every edge from this system's own codes to the external codes;
    fails (signals a lookup error) if any state referenced by an edge is
    missing from new_encoding". *)
Definition Edge_recode (encoding_old : list (Z * State))
    (encoding_new : list (State * Z)) (e : Edge) : result Edge :=
  match code_item encoding_old (source e), code_item encoding_old (target e) with
  | Some s, Some t =>
      match Dict.get s encoding_new, Dict.get t encoding_new with
      | Some s', Some t' => Ok (mkEdge (VCode s') (VCode t') (probability e))
      | _, _ => Raise KeyError
      end
  | _, _ => Raise KeyError
  end.

(** ** TS.TransitionSystem *)

(** [init] is [None] until [encode] stores the initial state's code (the
    constructor leaves the type object [int] there). *)
Record TransitionSystem : Type := mkTS {
  states_encoding : list (State * Z);
  edges : list Edge;
  ordering : list Complex;
  init : option Z;
  unprocessed : list State;
  processed : list State
}.

Definition TransitionSystem_init (ordering : list Complex) : TransitionSystem :=
  mkTS [] [] ordering None [] [].

Definition set_states_encoding (d : list (State * Z)) (ts : TransitionSystem) :=
  mkTS d (edges ts) (ordering ts) (init ts) (unprocessed ts) (processed ts).

Definition set_edges (es : list Edge) (ts : TransitionSystem) :=
  mkTS (states_encoding ts) es (ordering ts) (init ts) (unprocessed ts) (processed ts).

Definition set_init (c : option Z) (ts : TransitionSystem) :=
  mkTS (states_encoding ts) (edges ts) (ordering ts) c (unprocessed ts) (processed ts).

Definition set_processed (l : list State) (ts : TransitionSystem) :=
  mkTS (states_encoding ts) (edges ts) (ordering ts) (init ts) (unprocessed ts) l.

(** The loop of [encode]: [it] is the sequence in which Python iterates the
    set [self.processed | self.unprocessed]. *)
Definition encode_states (it : list State) (encoding : list (State * Z)) :
    list (State * Z) :=
  fold_left
    (λ d state,
       if Dict.mem state d then d
       else Dict.set state (Z.of_nat (length d) + 1) d)
    it encoding.

(** [it] iterates the union of the two staging sets: each element once. *)
Definition iterates (it : list State) (ts : TransitionSystem) : Prop :=
  NoDup it ∧ ∀ s, s ∈ it ↔ s ∈ processed ts ∨ s ∈ unprocessed ts.

(** The loop of [encode_edges] over a list of edge objects: the edges before
    the one that raises stay encoded. *)
Fixpoint encode_each (encoding : list (State * Z)) (es : list Edge) :
    result unit * list Edge :=
  match es with
  | [] => (Ok tt, [])
  | e :: es' =>
      match Edge_encode encoding e with
      | Ok e' => let '(r, es'') := encode_each encoding es' in (r, e' :: es'')
      | Raise x => (Raise x, e :: es')
      end
  end.

Definition encode_edges : M TransitionSystem unit :=
  λ ts, let '(r, es) := encode_each (states_encoding ts) (edges ts) in
        (r, set_edges es ts).

Definition encode (it : list State) (init_state : State) : M TransitionSystem unit :=
  (modify (λ ts, set_states_encoding (encode_states it (states_encoding ts)) ts) ;;
   ts <- get ;;
   code <- item KeyError (Dict.get init_state (states_encoding ts)) ;;
   modify (set_init (Some code)) ;;
   modify (set_processed []) ;;
   encode_edges)%py.

Definition create_decoding (ts : TransitionSystem) : list (Z * State) :=
  Dict.of_items ((λ kv, (kv.2, kv.1)) <$> states_encoding ts).

Definition recode (new_encoding : list (State * Z)) : M TransitionSystem unit :=
  λ ts, let old_encoding := create_decoding ts in
        match traverse (Edge_recode old_encoding new_encoding) (edges ts) with
        | Ok es => (Ok tt, set_edges (remove_dups es) ts)
        | Raise e => (Raise e, ts)
        end.

Definition change_hell (bound : Z) : M TransitionSystem unit :=
  λ ts, match List.find (λ kv, is_inf kv.1) (states_encoding ts) with
        | Some (key, value) =>
            let d := Dict.del key (states_encoding ts) in
            let hell := mkState (replicate (State_len key) (bound + 1)) true in
            (Ok tt, set_states_encoding (Dict.set hell value d) ts)
        | None => (Ok tt, ts)
        end.

(** [create_indices]: the inner loop appends the first position of
    [ordering_1[i_1]] in [ordering_2], and nothing when there is none. *)
Definition first_index (x : Complex) (l : list Complex) : option nat :=
  fst <$> list_find (λ y, x = y) l.

Definition create_indices (ordering_1 ordering_2 : list Complex) :
    bool * option (list nat) :=
  if set_eqb ordering_1 ordering_2
  then (true, Some (omap (λ x, first_index x ordering_2) ordering_1))
  else (false, None).

Context {Hash_Edge : Hash Edge}.

(** [self == other].  Exceptions other than the [KeyError] of [recode] are
    not caught. *)
Definition TransitionSystem_eq (self other : TransitionSystem) : result bool :=
  match create_indices (ordering other) (ordering self) with
  | (true, Some reordering_indices) =>
      let re_encoding :=
        Dict.of_items
          ((λ kv, (reorder reordering_indices kv.1, kv.2)) <$> states_encoding self) in
      let ts := set_edges (edges self)
                  (set_states_encoding re_encoding (TransitionSystem_init (ordering other))) in
      match recode (states_encoding other) ts with
      | (Ok _, ts') => Ok (set_eqb (hash <$> edges ts') (hash <$> edges other))
      | (Raise KeyError, _) => Ok false
      | (Raise e, _) => Raise e
      end
  | _ => Ok false
  end.

End TransitionSystem.

Arguments Edge P : clear implicits.
Arguments TransitionSystem Complex P : clear implicits.

(** ** Export to the explicit format of STORM

    The export runs on the transition system and the files it writes: a file
    is the text written to it since it was opened, found under its path.
    Writing to a file that is open is taken to succeed. *)
Section StormExport.
Context {Complex : Type} {P : Type} `{Number P} {Str_State : Str State}.

Record World : Type := mkWorld {
  system : TransitionSystem Complex P;
  files : list (string * string);
  openable : string → bool
}.

(** [open(path, "w+")]: the file is created or truncated; on a path that
    cannot be opened for writing the call raises [OSError] and nothing has
    happened.  [openable] tells the paths that can be opened. *)
Definition open_w (path : string) : M World unit :=
  λ w, if openable w path
       then (Ok tt, mkWorld (system w) (Dict.set path EmptyString (files w)) (openable w))
       else (Raise OSError, w).

Definition write (path data : string) : M World unit :=
  modify (λ w, mkWorld (system w)
                 (Dict.set path (default EmptyString (Dict.get path (files w)) +:+ data)
                    (files w))
                 (openable w)).

Definition on_system (f : TransitionSystem Complex P → TransitionSystem Complex P) :
    M World unit :=
  modify (λ w, mkWorld (f (system w)) (files w) (openable w)).

Fixpoint for_each {S A : Type} (l : list A) (body : A → M S unit) : M S unit :=
  match l with
  | [] => ret tt
  | x :: l' => (body x ;; for_each l' body)%py
  end.

Definition has_outgoing_edges (ts : TransitionSystem Complex P) (state : Z) : bool :=
  existsb (λ edge, bool_decide (source edge = VCode state)) (edges ts).

(** The body of [save_to_STORM_explicit].  [order_edges_source] is what the
    lookup of the attribute [self.order_edges_source] finds.  The
    [print(state)] of the last loop writes to the console and is left out. *)
Definition save_to_STORM_explicit_body
    (order_edges_source : option (TransitionSystem Complex P → list (Edge P)))
    (output_transitions output_labels : string) : M World unit :=
  (open_w output_transitions ;;
   write output_transitions ("dtmc" +:+ newline) ;;
   w <- get ;;
   for_each (states_encoding (system w))
     (λ kv, w <- get ;;
            if has_outgoing_edges (system w) kv.2 then ret tt
            else on_system
                   (λ ts, set_edges
                            (set_add (mkEdge (VCode kv.2) (VCode kv.2) one) (edges ts)) ts)) ;;
   method <- item AttributeError order_edges_source ;;
   w <- get ;;
   for_each (method (system w))
     (λ edge, write output_transitions (str edge +:+ newline)) ;;
   open_w output_labels ;;
   write output_labels ("#DECLARATION" +:+ newline +:+ "init ") ;;
   write output_labels ("deadlock" +:+ newline +:+ "#END" +:+ newline +:+ "0 init" +:+ newline) ;;
   w <- get ;;
   for_each (states_encoding (system w))
     (λ kv, if is_hell kv.1
            then write output_labels (str (sequence kv.1) +:+ "deadlock")
            else ret tt))%py.

(** The class [TransitionSystem] defines no attribute [order_edges_source]
    (the module only keeps the helper [take_source]). *)
Definition save_to_STORM_explicit : string → string → M World unit :=
  save_to_STORM_explicit_body None.

End StormExport.

(** ** Core.Rate: the vectoriser *)
Module Rate.
Section Rate.
Context {Complex Value : Type}.
Variable compatible : Complex → Complex → bool.

(** A rate expression is a lark tree; its leaves are tokens, [Complex]
    objects (the patterns of the agents), [State] vectors once the rate is
    vectorised, and the values of the defined parameters. *)
#[warning="-register-all"]
Inductive node : Type :=
| Tree (data : string) (children : list node)
| Token (type value : string)
| Pattern (complex : Complex)
| Vec (state : State)
| Num (value : Value).

(** [str] of a node that is not a token is left open. *)
Context {Str_object : Str node}.

Definition node_str (n : node) : string :=
  match n with
  | Token _ value => value
  | _ => str n
  end.

Definition lift {S A : Type} (r : result A) : M S A :=
  match r with
  | Ok a => ret a
  | Raise e => raise e
  end.

Fixpoint sequence_M {S A : Type} (l : list (M S A)) : M S (list A) :=
  match l with
  | [] => ret []
  | m :: l' => (x <- m ;; xs <- sequence_M l' ;; ret (x :: xs))%py
  end.

(** lark's [Transformer]: the children are transformed first, left to
    right; then the method named after the tree's [data] is called on them,
    and a tree without such a method is rebuilt.  Leaves stay as they are.
    [user] gives the methods of the transformer by name; the rules of the
    rate grammar bear the names of no other attribute of it. *)
Fixpoint transform_tree {S : Type} (user : string → option (list node → M S node))
    (t : node) : M S node :=
  match t with
  | Tree data children =>
      (children' <- sequence_M (List.map (transform_tree user) children) ;;
       match user data with
       | Some method => method children'
       | None => ret (Tree data children')
       end)%py
  | _ => ret t
  end.

Definition transform {S : Type} (user : string → option (list node → M S node))
    (t : node) : M S node :=
  match t with
  | Tree _ _ => transform_tree user t
  | _ => raise AttributeError
  end.

Section Vectorizer.
Variable ordering : list Complex.
Variable definitions : list (string * Value).

(** [complex.compatible(self.ordering[i])]: only a [Complex] has the method. *)
Definition compatible_bit (complex : node) (species : Complex) : result Z :=
  match complex with
  | Pattern p => Ok (if compatible p species then 1 else 0)
  | _ => Raise AttributeError
  end.

Definition Vectorizer_agent (children : list node) : M (list State) node :=
  (complex <- item IndexError (head children) ;;
   result <- lift (traverse (compatible_bit complex) ordering) ;;
   let result := mkState result false in
   modify (λ visited, visited ++ [result]) ;;
   ret (Tree "agent" [Vec result]))%py.

Definition Vectorizer_rate_agent (matches : list node) : M (list State) node :=
  item IndexError (matches !! 1%nat).

Definition Vectorizer_param (matches : list node) : M (list State) node :=
  (name <- item IndexError (head matches) ;;
   ret (default (Tree "param" matches) (Num <$> Dict.get (node_str name) definitions)))%py.

Definition Vectorizer (data : string) : option (list node → M (list State) node) :=
  if decide (data = "agent") then Some Vectorizer_agent
  else if decide (data = "rate_agent") then Some Vectorizer_rate_agent
  else if decide (data = "param") then Some Vectorizer_param
  else None.

(** [Rate.vectorize]: the state is [self.expression]; the result is
    [vec.visited]. *)
Definition vectorize : M node (list State) :=
  λ expression,
    match transform Vectorizer expression [] with
    | (Ok expression', visited) => (Ok visited, expression')
    | (Raise e, _) => (Raise e, expression)
    end.

(** The vector the claim describes for a pattern. *)
Definition compatibility (complex : Complex) : State :=
  mkState ((λ species, if compatible complex species then 1 else 0) <$> ordering) false.

End Vectorizer.

(** The patterns of the agents of an expression, in the order in which the
    transformer reaches them (children before their parent). *)
Fixpoint patterns (t : node) : list Complex :=
  match t with
  | Tree data children =>
      List.concat (List.map patterns children)
        ++ (if decide (data = "agent")
            then match children with Pattern c :: _ => [c] | _ => [] end
            else [])
  | _ => []
  end.

(** The children of the agent nodes of an expression, left to right. *)
Fixpoint agent_nodes (t : node) : list (list node) :=
  match t with
  | Tree data children =>
      (if decide (data = "agent") then [children] else [])
        ++ List.concat (List.map agent_nodes children)
  | _ => []
  end.

(** An expression as the parser builds it: an agent holds a pattern, a
    bracketed agent has its three parts, a parameter has its name. *)
Fixpoint parsed (t : node) : bool :=
  match t with
  | Tree data children =>
      forallb parsed children &&
      (if decide (data = "agent")
       then match children with Pattern _ :: _ => true | _ => false end
       else if decide (data = "rate_agent") then bool_decide (2 ≤ length children)%nat
       else if decide (data = "param") then bool_decide (1 ≤ length children)%nat
       else true)
  | _ => true
  end.

(** An agent node of a vectorised expression holds the vector of one of
    the patterns [ps]. *)
Definition vectorised (ordering : list Complex) (ps : list Complex)
    (held : list node) : Prop :=
  ∃ c, c ∈ ps ∧ held = [Vec (compatibility ordering c)].

(** What the transformer does on a node, started with [visited]. *)
Definition transformed (ordering : list Complex) (definitions : list (string * Value))
    (t : node) : Prop :=
  ∀ visited, parsed t = true →
    ∃ t', transform_tree (Vectorizer ordering definitions) t visited
          = (Ok t', visited ++ (compatibility ordering <$> patterns t)) ∧
          Forall (vectorised ordering (patterns t)) (agent_nodes t') ∧
          match t with Tree _ _ => True | _ => t' = t end.

(** ** The other transformers of [Core/Rate.py] *)

Context `{EqDecision Complex} `{EqDecision Value}.

(** [==] on the objects of a tree: trees compare their data and children,
    tokens their type and value. *)
#[global] Instance node_eq_dec : EqDecision node.
Proof.
  refine (fix go (x y : node) {struct x} : Decision (x = y) :=
    match x, y with
    | Tree d1 c1, Tree d2 c2 =>
        cast_if_and (decide (d1 = d2))
          ((fix gos (l k : list node) {struct l} : Decision (l = k) :=
              match l, k with
              | [], [] => left _
              | a :: l', b :: k' => cast_if_and (go a b) (gos l' k')
              | _, _ => right _
              end) c1 c2)
    | Token t1 v1, Token t2 v2 => cast_if_and (decide (t1 = t2)) (decide (v1 = v2))
    | Pattern a, Pattern b => cast_if (decide (a = b))
    | Vec a, Vec b => cast_if (decide (a = b))
    | Num a, Num b => cast_if (decide (a = b))
    | _, _ => right _
    end); clear go; try clear gos; congruence.
Defined.

(** [Extractor]: its state is the pair of the sets [agents] and [params];
    both methods rebuild the node they are called on. *)
Definition Extractor_agent (matches : list node) : M (list node * list node) node :=
  (first <- item IndexError (head matches) ;;
   modify (λ st, (set_add first st.1, st.2)) ;;
   ret (Tree "agent" matches))%py.

Definition Extractor_param (matches : list node) : M (list node * list node) node :=
  (first <- item IndexError (head matches) ;;
   modify (λ st, (st.1, set_add first st.2)) ;;
   ret (Tree "param" matches))%py.

Definition Extractor (data : string) :
    option (list node → M (list node * list node) node) :=
  if decide (data = "agent") then Some Extractor_agent
  else if decide (data = "param") then Some Extractor_param
  else None.

(** [Rate.get_params_and_agents]: the transformed tree is dropped, the rate
    keeps its expression; the result is [(agents, params)]. *)
Definition get_params_and_agents : M node (list node * list node) :=
  λ expression,
    match transform Extractor expression ([], []) with
    | (Ok _, found) => (Ok found, expression)
    | (Raise e, _) => (Raise e, expression)
    end.

(** [ContextReducer]: [matches[0].reduce_context()] is a method of
    [Complex]; the node is rebuilt with the reduced pattern as its only
    child. *)
Variable Complex_reduce_context : Complex → Complex.

Definition ContextReducer_agent (matches : list node) : M unit node :=
  (first <- item IndexError (head matches) ;;
   match first with
   | Pattern c => ret (Tree "agent" [Pattern (Complex_reduce_context c)])
   | _ => raise AttributeError
   end)%py.

Definition ContextReducer (data : string) : option (list node → M unit node) :=
  if decide (data = "agent") then Some ContextReducer_agent else None.

(** [Rate.reduce_context]: returns a new rate, the rate itself keeps its
    expression. *)
Definition reduce_context : M node node :=
  λ expression,
    match transform ContextReducer expression tt with
    | (Ok expression', _) => (Ok expression', expression)
    | (Raise e, _) => (Raise e, expression)
    end.

(** The first children of the parameter nodes of an expression, in the
    order in which the transformer reaches them. *)
Fixpoint param_heads (t : node) : list node :=
  match t with
  | Tree data children =>
      List.concat (List.map param_heads children)
        ++ (if decide (data = "param")
            then match children with n :: _ => [n] | [] => [] end
            else [])
  | _ => []
  end.

(** Every agent node holds its pattern and nothing else. *)
Fixpoint plain_agents (t : node) : bool :=
  match t with
  | Tree data children =>
      forallb plain_agents children &&
      (if decide (data = "agent")
       then match children with [Pattern _] => true | _ => false end
       else true)
  | _ => true
  end.

(** The shape of a vectorised expression: no bracketed agent is left, an
    agent node holds a vector, a parameter node that is left has a first
    child whose name has no definition. *)
Fixpoint vectorised_shape (definitions : list (string * Value)) (t : node) : bool :=
  match t with
  | Tree data children =>
      forallb (vectorised_shape definitions) children &&
      (if decide (data = "agent")
       then match children with [Vec _] => true | _ => false end
       else if decide (data = "rate_agent") then false
       else if decide (data = "param")
       then match children with
            | n :: _ => bool_decide (Dict.get (node_str n) definitions = None)
            | [] => false
            end
       else true)
  | _ => true
  end.

(** The children of the parameter nodes of an expression, left to right. *)
Fixpoint param_nodes (t : node) : list (list node) :=
  match t with
  | Tree data children =>
      (if decide (data = "param") then [children] else [])
        ++ List.concat (List.map param_nodes children)
  | _ => []
  end.

(** What the extractor does on a node, started with the two sets [st]. *)
Definition extracted (t : node) : Prop :=
  ∀ st, parsed t = true →
    transform_tree Extractor t st
    = (Ok t, (set_add_all (Pattern <$> patterns t) st.1,
              set_add_all (param_heads t) st.2)).

(** What the context reducer does on a node. *)
Definition reduced (t : node) : Prop :=
  parsed t = true → plain_agents t = true →
    ∃ t', transform_tree ContextReducer t tt = (Ok t', tt) ∧
          parsed t' = true ∧ plain_agents t' = true ∧
          patterns t' = Complex_reduce_context <$> patterns t ∧
          match t with
          | Tree _ _ => ∃ data' children', t' = Tree data' children'
          | _ => t' = t
          end.

(** The vectoriser leaves a node in the vectorised shape. *)
Definition shaped (ordering : list Complex) (definitions : list (string * Value))
    (t : node) : Prop :=
  parsed t = true →
  ∀ visited, ∃ t' visited',
    transform_tree (Vectorizer ordering definitions) t visited = (Ok t', visited') ∧
    vectorised_shape definitions t' = true ∧
    match t with Tree _ _ => True | _ => t' = t end.

(** What the vectoriser does on a node that is already vectorised. *)
Definition second_pass (ordering : list Complex) (definitions : list (string * Value))
    (t : node) : Prop :=
  vectorised_shape definitions t = true →
  ∀ visited,
    (agent_nodes t = [] →
     ∃ t' visited',
       transform_tree (Vectorizer ordering definitions) t visited = (Ok t', visited')) ∧
    (agent_nodes t ≠ [] →
     ∃ visited',
       transform_tree (Vectorizer ordering definitions) t visited
       = (Raise AttributeError, visited')).

(** An expression of the rate grammar: an agent holds its pattern alone, a
    bracketed agent holds a node between two tokens (the brackets), and the
    children of a parameter are tokens. *)
Definition is_token (t : node) : bool :=
  match t with
  | Token _ _ => true
  | _ => false
  end.

Fixpoint grammatical (t : node) : bool :=
  match t with
  | Tree data children =>
      forallb grammatical children &&
      (if decide (data = "agent")
       then match children with [Pattern _] => true | _ => false end
       else if decide (data = "rate_agent")
       then match children with
            | [opening; _; closing] => is_token opening && is_token closing
            | _ => false
            end
       else if decide (data = "param")
       then match children with
            | _ :: _ => forallb is_token children
            | [] => false
            end
       else true)
  | _ => true
  end.

(** Following the docstring of [vectorize] and the methods of the
    vectoriser: the expression in which every agent holds the vector of
    its pattern, every bracketed agent is replaced by its second child, and
    every parameter whose name has a definition is replaced by the value;
    all the rest is kept. *)
Fixpoint vectorized (ordering : list Complex) (definitions : list (string * Value))
    (t : node) : node :=
  match t with
  | Tree data children =>
      let children' := List.map (vectorized ordering definitions) children in
      if decide (data = "agent")
      then match children with
           | Pattern c :: _ => Tree "agent" [Vec (compatibility ordering c)]
           | _ => t
           end
      else if decide (data = "rate_agent") then default t (children' !! 1%nat)
      else if decide (data = "param")
      then match children' with
           | name :: _ =>
               default (Tree "param" children')
                 (Num <$> Dict.get (node_str name) definitions)
           | [] => t
           end
      else Tree data children'
  | _ => t
  end.

End Rate.
End Rate.

(** ** Vocabulary of the properties *)

(** An encoding as [encode] leaves it: the codes in use are 1, 2, ...,
    each once (in any order of the keys). *)
Definition canonical (encoding : list (State * Z)) : Prop :=
  NoDup (Dict.keys encoding) ∧
  Dict.values encoding ≡ₚ Z.of_nat <$> seq 1 (length encoding).

(** The codes [n+1], [n+2], ... given to the states [l], in this order. *)
Definition numbered (n : nat) (l : list State) : list (State * Z) :=
  zip l (Z.of_nat <$> seq (S n) (length l)).

Section StormVocabulary.
Context {Complex : Type} {P : Type} `{Number P} {Str_State : Str State}.

(** The self-loop [Edge(value, value, 1)]. *)
Definition self_loop (value : Z) : Edge P := mkEdge (VCode value) (VCode value) one.

(** The edges once the first loop of the export has visited the items [d]
    of the encoding. *)
Definition with_self_loops (d : list (State * Z)) (es : list (Edge P)) : list (Edge P) :=
  fold_left
    (λ es kv,
       if existsb (λ edge, bool_decide (source edge = VCode kv.2)) es then es
       else set_add (self_loop kv.2) es)
    d es.

(** The text of a transitions file holding the edges [es], in this order. *)
Definition transitions_text (es : list (Edge P)) : string :=
  fold_left (λ text edge, text +:+ (str edge +:+ newline)) es ("dtmc" +:+ newline).

Definition labels_header : string :=
  ("#DECLARATION" +:+ newline +:+ "init ")
    +:+ ("deadlock" +:+ newline +:+ "#END" +:+ newline +:+ "0 init" +:+ newline).

(** The text of the labels file for the encoding [d]. *)
Definition labels_text (d : list (State * Z)) : string :=
  fold_left
    (λ text kv, if is_hell kv.1 then text +:+ (str (sequence kv.1) +:+ "deadlock") else text)
    d labels_header.

End StormVocabulary.

Section IsomorphismVocabulary.
Context {Complex : Type} {P : Type}.
Implicit Types ts : TransitionSystem Complex P.

(** [l[indices]]: the elements of [l] at the positions [indices]. *)
Definition permute_list {A : Type} (indices : list nat) (l : list A) : list A :=
  omap (λ j, l !! j) indices.






(** An encoded system: distinct species, distinct states as long as the
    ordering, distinct edges between codes of the encoding. *)
Definition encoded_system ts : Prop :=
  NoDup (ordering ts) ∧
  NoDup (Dict.keys (states_encoding ts)) ∧
  Forall (λ s, State_len s = length (ordering ts)) (Dict.keys (states_encoding ts)) ∧
  NoDup (edges ts) ∧
  Forall (λ e, ∃ a b, source e = VCode a ∧ target e = VCode b ∧
                      a ∈ Dict.values (states_encoding ts) ∧
                      b ∈ Dict.values (states_encoding ts))
    (edges ts).

End IsomorphismVocabulary.

(** ** Concrete systems used to exercise the statements *)
Module Examples.

(** Two species, and states over them. *)
Definition species : list string := ["A"; "B"]%string.

Definition s0 : State := mkState [1; 0] false.
Definition s1 : State := mkState [0; 1] false.
Definition s2 : State := mkState [2; 2] false.
Definition overflow : State := mkState [9; 9] true.

(** A system under construction: one edge between two staged states. *)
Definition building : TransitionSystem string Z :=
  mkTS [] [mkEdge (VState s0) (VState s1) 1] species None [s1] [s0].

(** The same system after [encode([s0, s1], s0)]. *)
Definition encoded : TransitionSystem string Z :=
  mkTS [(s0, 1); (s1, 2)] [mkEdge (VCode 1) (VCode 2) 1] species (Some 1) [s1] [].

(** An encoded system whose second state is the overflow state. *)
Definition with_overflow : TransitionSystem string Z :=
  mkTS [(s0, 1); (overflow, 2); (s1, 3)]
       [mkEdge (VCode 1) (VCode 2) 1; mkEdge (VCode 1) (VCode 3) 1]
       species (Some 1) [] [].

(** [with_overflow] after [change_hell(4)]. *)
Definition collapsed : TransitionSystem string Z :=
  mkTS [(s0, 1); (s1, 3); (mkState [5; 5] true, 2)]
       [mkEdge (VCode 1) (VCode 2) 1; mkEdge (VCode 1) (VCode 3) 1]
       species (Some 1) [] [].

(** A hash of edges. *)
Definition edge_hash : Hash (Edge Z) :=
  λ e, match source e, target e with
       | VCode a, VCode b => (a * 100 + b) * 100 + probability e
       | _, _ => 0
       end.



(** [encoded] with the two species swapped. *)
Definition swapped : TransitionSystem string Z :=
  mkTS [(mkState [0; 1] false, 1); (mkState [1; 0] false, 2)]
       [mkEdge (VCode 1) (VCode 2) 1] ["B"; "A"]%string (Some 1)
       [mkState [1; 0] false] [].




(** A file system on which every path can be opened, and one that has no
    directory [missing]. *)
Definition writable : string → bool := λ _, true.

Definition no_directory : string → bool :=
  λ path, negb (String.prefix "missing/" path).

(** A rendering of states, for edges that are not encoded. *)
Definition State_str : Str State := λ s, str (sequence s).

(** The rate [3*[K]] over three species; a pattern is compatible with the
    species whose names it starts. *)
Definition species3 : list string := ["K"; "KB"; "B"]%string.

Definition starts_with (pattern species : string) : bool :=
  String.prefix pattern species.

Definition node_repr : Str (Rate.node (Complex := string) (Value := Z)) :=
  λ _, EmptyString.

Definition rate_children : list (Rate.node (Complex := string) (Value := Z)) :=
  [Rate.Tree "fun"
     [Rate.Token "NUMBER" "3"; Rate.Token "STAR" "*";
      Rate.Tree "rate_agent"
        [Rate.Token "LSQB" "["; Rate.Tree "agent" [Rate.Pattern "K"%string];
         Rate.Token "RSQB" "]"]]].

Definition rate_expression : Rate.node (Complex := string) (Value := Z) :=
  Rate.Tree "rate" rate_children.

Definition rate_vectorised : Rate.node (Complex := string) (Value := Z) :=
  Rate.Tree "rate"
    [Rate.Tree "fun"
       [Rate.Token "NUMBER" "3"; Rate.Token "STAR" "*";
        Rate.Tree "agent" [Rate.Vec (mkState [1; 1; 0] false)]]].

(** The rate [[K]*[B]] and what [vectorize] makes of it. *)
Definition product_children : list (Rate.node (Complex := string) (Value := Z)) :=
  [Rate.Tree "fun"
     [Rate.Tree "rate_agent"
        [Rate.Token "LSQB" "["; Rate.Tree "agent" [Rate.Pattern "K"%string];
         Rate.Token "RSQB" "]"];
      Rate.Token "STAR" "*";
      Rate.Tree "rate_agent"
        [Rate.Token "LSQB" "["; Rate.Tree "agent" [Rate.Pattern "B"%string];
         Rate.Token "RSQB" "]"]]].

Definition product_expression : Rate.node (Complex := string) (Value := Z) :=
  Rate.Tree "rate" product_children.

Definition product_vectorised : Rate.node (Complex := string) (Value := Z) :=
  Rate.Tree "rate"
    [Rate.Tree "fun"
       [Rate.Tree "agent" [Rate.Vec (mkState [1; 1; 0] false)];
        Rate.Token "STAR" "*";
        Rate.Tree "agent" [Rate.Vec (mkState [0; 0; 1] false)]]].

End Examples.

(** ** Further concrete systems *)
Module MoreExamples.
Import Examples.

(** An encoding in which two states share the code 1. *)
Definition shared : TransitionSystem string Z :=
  mkTS [(s0, 1); (s1, 1)] [] species None [] [].

(** [encoded] with another initial state and other staging sets. *)
Definition restaged : TransitionSystem string Z :=
  mkTS [(s0, 1); (s1, 2)] [mkEdge (VCode 1) (VCode 2) 1] species (Some 2) [] [s0; s1].

(** A system over the same species that has no code for [s1]. *)
Definition smaller : TransitionSystem string Z :=
  mkTS [(s0, 1)] [] species (Some 1) [] [].

(** The rate [k1*[KB]*k2]; of its parameters only [k1] has a definition,
    and reducing a pattern keeps its first letter. *)
Definition param_children : list (Rate.node (Complex := string) (Value := Z)) :=
  [Rate.Tree "fun"
     [Rate.Tree "fun"
        [Rate.Tree "param" [Rate.Token "NAME" "k1"]; Rate.Token "STAR" "*";
         Rate.Tree "rate_agent"
           [Rate.Token "LSQB" "["; Rate.Tree "agent" [Rate.Pattern "KB"%string];
            Rate.Token "RSQB" "]"]];
      Rate.Token "STAR" "*";
      Rate.Tree "param" [Rate.Token "NAME" "k2"]]].

Definition param_expression : Rate.node (Complex := string) (Value := Z) :=
  Rate.Tree "rate" param_children.

Definition param_vectorised : Rate.node (Complex := string) (Value := Z) :=
  Rate.Tree "rate"
    [Rate.Tree "fun"
       [Rate.Tree "fun"
          [Rate.Num 5; Rate.Token "STAR" "*";
           Rate.Tree "agent" [Rate.Vec (mkState [0; 1; 0] false)]];
        Rate.Token "STAR" "*";
        Rate.Tree "param" [Rate.Token "NAME" "k2"]]].

Definition bound : list (string * Z) := [("k1"%string, 5)].

Definition first_letter (c : string) : string := String.substring 0 1 c.

End MoreExamples.

(** ** Iteration over the edges and the export to PRISM *)
Section PrismExport.
Context {Complex : Type} {P : Type} `{Number P} {Str_State : Str State}.
Context {Str_Complex : Str Complex}.

Definition tab : string := String (ascii_of_nat 9) EmptyString.

(** [itertools.groupby(l, key)]: the maximal runs of consecutive elements
    of [l] with equal keys, each with its key. *)
Fixpoint groupby {A K : Type} `{EqDecision K} (key : A → K) (l : list A) :
    list (K * list A) :=
  match l with
  | [] => []
  | x :: l' =>
      match groupby key l' with
      | (k, group) :: groups =>
          if decide (key x = k) then (k, x :: group) :: groups
          else (key x, [x]) :: (k, group) :: groups
      | [] => [(key x, [x])]
      end
  end.

(** [sorted(self.edges)] follows the order of the class [Edge], which
    [TS/Edge.py] defines; [sorted_edges] stands for it. *)
Variable sorted_edges : list (Edge P) → list (Edge P).

(** [__iter__] and [__next__]: the lists that a loop [for group in self]
    sees, one after the other.  The attributes [index] and [data] that
    [__iter__] sets are read by [__next__] alone. *)
Definition TransitionSystem_iter (ts : TransitionSystem Complex P) : list (list (Edge P)) :=
  snd <$> groupby source (sorted_edges (edges ts)).

(** [state.to_PRISM_string()] and [edge.to_PRISM_string(decoding)] are
    methods of [TS/State.py] and [TS/Edge.py]; each returns a string or
    raises. *)
Variable State_to_PRISM_string : State → result string.
Variable Edge_to_PRISM_string : Edge P → list (Z * State) → result string.

(** One pass of the loop of [edges_to_PRISM]. *)
Definition edges_to_PRISM_line (decoding : list (Z * State)) (group : list (Edge P)) :
    result string :=
  match head group with
  | None => Raise IndexError
  | Some first =>
      match code_item decoding (source first) with
      | None => Raise KeyError
      | Some state =>
          match State_to_PRISM_string state with
          | Raise e => Raise e
          | Ok guard =>
              match traverse (λ edge, Edge_to_PRISM_string edge decoding) group with
              | Raise e => Raise e
              | Ok updates =>
                  Ok (tab +:+ "[] " +:+ guard +:+ " -> " +:+ join " + " updates +:+ ";")
              end
          end
      end
  end.

Definition edges_to_PRISM (decoding : list (Z * State))
    (ts : TransitionSystem Complex P) : result (list string) :=
  traverse (edges_to_PRISM_line decoding) (TransitionSystem_iter ts).

(** The declaration of the state variable [i], for the species
    [self.ordering[i]]; [init.sequence[i]] is an [IndexError] past the end
    of the vector. *)
Definition declare_variable (bound : Z) (init : State) (i : nat) (species : Complex) :
    result string :=
  match sequence init !! i with
  | Some value =>
      Ok (tab +:+ "VAR_" +:+ str (Z.of_nat i) +:+ " : [0.." +:+ str (bound + 1)
          +:+ "] init " +:+ str value +:+ "; // " +:+ str species)
  | None => Raise IndexError
  end.

Definition declare_parameter (param : string) : string :=
  tab +:+ "const double " +:+ param +:+ ";".

Definition returned {S A : Type} (r : result A) : M S A := λ s, (r, s).

(** [save_to_prism]: [params] lists the set of parameter names in the order
    in which Python iterates it. *)
Definition save_to_prism (output_prism : string) (bound : Z) (params : list string)
    (prism_formulas : list string) : M World unit :=
  (w <- get ;;
   let decoding := create_decoding (system w) in
   open_w output_prism ;;
   write output_prism ("dtmc" +:+ newline +:+ newline +:+ "module TS" +:+ newline) ;;
   write output_prism (newline +:+ join newline (declare_parameter <$> params) +:+ newline) ;;
   init <- item KeyError (init (system w) ≫= λ code, Dict.get code decoding) ;;
   vars <- returned (traverse (λ i_species, declare_variable bound init i_species.1 i_species.2)
                       (imap pair (ordering (system w)))) ;;
   write output_prism (newline +:+ join newline vars +:+ newline) ;;
   transitions <- returned (edges_to_PRISM decoding (system w)) ;;
   write output_prism (newline +:+ join newline transitions) ;;
   write output_prism (newline +:+ "endmodule" +:+ newline) ;;
   write output_prism (newline +:+ join newline prism_formulas))%py.

(** The text of the file down to the declarations of the parameters, and
    the declarations of the state variables for the initial state [init]. *)
Definition prism_head (params : list string) : string :=
  ("dtmc" +:+ newline +:+ newline +:+ "module TS" +:+ newline)
    +:+ (newline +:+ join newline (declare_parameter <$> params) +:+ newline).

Definition variable_lines (bound : Z) (init : State) (ordering : list Complex) : list string :=
  imap (λ i species,
          tab +:+ "VAR_" +:+ str (Z.of_nat i) +:+ " : [0.." +:+ str (bound + 1)
          +:+ "] init " +:+ str (nth i (sequence init) 0) +:+ "; // " +:+ str species)
    ordering.

End PrismExport.

(** ** Core.Model: labels for the complexes of a formula *)
Section ComplexLabels.
Context {Complex : Type} `{EqDecision Complex}.

(** [complex.to_PRISM_code(number)] and
    [complex.identify_compatible(ordering)] are methods of the class
    [Complex], which is not part of these sources; the second gives
    positions of the ordering. *)
Variable to_PRISM_code : Complex → nat → string.
Variable identify_compatible : Complex → list Complex → list nat.

(** The [id] of an abstract complex and the formula that defines it. *)
Definition abstract_label (indices : list nat) : string :=
  "ABSTRACT_VAR_" +:+ join EmptyString ((λ i, str (Z.of_nat i)) <$> indices).

Definition abstract_formula (indices : list nat) : string :=
  abstract_label indices +:+ " = "
    +:+ join "+" ((λ i, "VAR_" +:+ str (Z.of_nat i)) <$> indices).

(** [create_complex_labels]: [complex in ordering] and
    [ordering.index(complex)] compare with [==], so the position exists
    exactly when the test holds.  The method does not use [self]. *)
Definition create_complex_labels (complexes ordering : list Complex) :
    list (Complex * string) * list string :=
  fold_left
    (λ acc complex,
       match first_index complex ordering with
       | Some number => (Dict.set complex (to_PRISM_code complex number) acc.1, acc.2)
       | None =>
           let indices := identify_compatible complex ordering in
           (Dict.set complex (abstract_label indices) acc.1,
            acc.2 ++ [abstract_formula indices])
       end)
    complexes ([], []).

(** The label of one complex. *)
Definition complex_label (ordering : list Complex) (complex : Complex) : string :=
  match first_index complex ordering with
  | Some number => to_PRISM_code complex number
  | None => abstract_label (identify_compatible complex ordering)
  end.

End ComplexLabels.

(** ** Concrete collaborators for the exports *)
Module ExportExamples.
Import Examples.

Definition species_str : Str string := λ s, s.

(** The edges of the examples are listed in their order. *)
Definition listed (es : list (Edge Z)) : list (Edge Z) := es.

Definition guard (s : State) : result string := Ok (str (sequence s)).

Definition update (e : Edge Z) (decoding : list (Z * State)) : result string :=
  match code_item decoding (target e) with
  | Some s => Ok (str (probability e) +:+ " : " +:+ str (sequence s))
  | None => Raise KeyError
  end.

(** Thirteen species, and two patterns that are none of them: ["x"] is
    compatible with the species at the positions 1 and 12, ["y"] with the
    ones at 11 and 2. *)
Definition species13 : list string :=
  ["a"; "b"; "c"; "d"; "e"; "f"; "g"; "h"; "i"; "j"; "k"; "l"; "m"]%string.

Definition code (c : string) (number : nat) : string := "VAR_" +:+ str (Z.of_nat number).

Definition compatible_positions (c : string) (ordering : list string) : list nat :=
  if decide (c = "x"%string) then [1; 12]%nat
  else if decide (c = "y"%string) then [11; 2]%nat
  else [].

End ExportExamples.

(** * Properties *)

(** ** Lists *)

Lemma filter_ext_elem {A : Type} (P1 P2 : A → Prop)
    `{∀ x, Decision (P1 x)} `{∀ x, Decision (P2 x)} (l : list A) :
  (∀ x, x ∈ l → P1 x ↔ P2 x) → filter P1 l = filter P2 l.
Proof.
  induction l as [|a l IH]; intros Hext; [done|].
  rewrite !filter_cons. rewrite IH by (intros x Hx; apply Hext; by right).
  destruct (decide (P1 a)) as [H1|H1], (decide (P2 a)) as [H2|H2]; try done;
    exfalso; apply (Hext a) in H1 || apply (Hext a) in H2; try done; left.
Qed.

Lemma filter_all {A : Type} (Q : A → Prop) `{∀ x, Decision (Q x)} (l : list A) :
  Forall Q l → filter Q l = l.
Proof.
  induction 1 as [|a l Ha _ IH]; [done|].
  by rewrite filter_cons_True, IH.
Qed.

Lemma set_eqb_true {A : Type} `{EqDecision A} (a b : list A) :
  set_eqb a b = true ↔ ∀ x, x ∈ a ↔ x ∈ b.
Proof.
  unfold set_eqb. rewrite andb_true_iff, !forallb_forall. split.
  - intros [Hab Hba] x. split; intros Hx.
    + apply list_elem_of_In, Hab in Hx. by apply bool_decide_eq_true_1 in Hx.
    + apply list_elem_of_In, Hba in Hx. by apply bool_decide_eq_true_1 in Hx.
  - intros Heq. split; intros x Hx; apply bool_decide_eq_true_2, Heq;
      by apply list_elem_of_In.
Qed.

Lemma omap_Forall2 {A B : Type} (f : A → option B) (l : list A) :
  Forall (λ x, is_Some (f x)) l → Forall2 (λ x y, f x = Some y) l (omap f l).
Proof.
  induction 1 as [|x l [y Hy] _ IH]; simpl; [constructor|].
  rewrite Hy. by constructor.
Qed.

Lemma traverse_id {A : Type} (f : A → result A) (l : list A) :
  Forall (λ x, f x = Ok x) l → traverse f l = Ok l.
Proof. induction 1 as [|x l Hx _ IH]; simpl; [done|]. by rewrite Hx, IH. Qed.

(** ** Dictionaries *)

Section DictFacts.
Context {K V : Type} `{EqDecision K}.
Implicit Types (d : list (K * V)) (k : K) (v : V).

Lemma get_None k d : Dict.get k d = None ↔ k ∉ Dict.keys d.
Proof.
  unfold Dict.keys. induction d as [|[k' v'] d IH]; simpl.
  - split; [intros _; apply not_elem_of_nil | done].
  - case_decide; subst.
    + split; [done | intros Hk; exfalso; apply Hk; left].
    + rewrite IH, not_elem_of_cons. split; [intros Hk; split; [by intros -> | done] | tauto].
Qed.

Lemma get_Some_elem k v d : Dict.get k d = Some v → (k, v) ∈ d.
Proof.
  induction d as [|[k' v'] d IH]; simpl; [done|].
  case_decide; subst.
  - intros [= ->]. left.
  - intros. right. auto.
Qed.

Lemma elem_get k v d : NoDup (Dict.keys d) → (k, v) ∈ d → Dict.get k d = Some v.
Proof.
  unfold Dict.keys. induction d as [|[k' v'] d IH]; simpl.
  - intros _ Hin. by apply elem_of_nil in Hin.
  - intros Hnd Hin. apply NoDup_cons in Hnd as [Hk Hnd].
    apply elem_of_cons in Hin as [[= <- <-]|Hin].
    + by rewrite decide_True.
    + rewrite decide_False; [auto|].
      intros ->. apply Hk. apply (list_elem_of_fmap_2 fst) in Hin. done.
Qed.

Lemma get_app k d1 d2 :
  Dict.get k (d1 ++ d2) = match Dict.get k d1 with Some v => Some v | None => Dict.get k d2 end.
Proof.
  induction d1 as [|[k' v'] d1 IH]; simpl; [done|]. by case_decide.
Qed.

Lemma set_fresh k v d : Dict.get k d = None → Dict.set k v d = d ++ [(k, v)].
Proof.
  induction d as [|[k' v'] d IH]; simpl; [done|].
  case_decide; [done|]. intros. by rewrite IH.
Qed.

Lemma get_set_eq k v d : Dict.get k (Dict.set k v d) = Some v.
Proof.
  induction d as [|[k' v'] d IH]; simpl.
  - by rewrite decide_True.
  - case_decide; simpl; subst; [by rewrite decide_True | by rewrite decide_False].
Qed.

Lemma get_set_ne k k' v d : k ≠ k' → Dict.get k' (Dict.set k v d) = Dict.get k' d.
Proof.
  intros Hne. induction d as [|[k0 v0] d IH]; simpl.
  - by rewrite decide_False.
  - case_decide; simpl; subst.
    + by rewrite !decide_False.
    + by rewrite IH.
Qed.

Lemma get_del_ne k k' d : k ≠ k' → Dict.get k' (Dict.del k d) = Dict.get k' d.
Proof.
  intros Hne. induction d as [|[k0 v0] d IH]; simpl; [done|].
  case_decide; simpl; subst.
  - by rewrite decide_False.
  - by rewrite IH.
Qed.

Lemma get_del_eq k d : NoDup (Dict.keys d) → Dict.get k (Dict.del k d) = None.
Proof.
  unfold Dict.keys. induction d as [|[k0 v0] d IH]; simpl; [done|].
  intros Hnd. apply NoDup_cons in Hnd as [Hk Hnd].
  case_decide; simpl; subst.
  - by apply get_None.
  - rewrite decide_False by done. auto.
Qed.

Lemma of_items_acc (l : list (K * V)) d :
  NoDup (Dict.keys (d ++ l)) →
  fold_left (λ d kv, Dict.set kv.1 kv.2 d) l d = d ++ l.
Proof.
  revert d. induction l as [|[k v] l IH]; intros d Hnd; simpl.
  - by rewrite app_nil_r.
  - rewrite set_fresh.
    + rewrite IH; rewrite <- app_assoc; done.
    + apply get_None. unfold Dict.keys in *. rewrite fmap_app in Hnd.
      apply NoDup_app in Hnd as (_ & Hd & _). intros Hin.
      apply (Hd k Hin). simpl. left.
Qed.

Lemma of_items_NoDup (l : list (K * V)) : NoDup (Dict.keys l) → Dict.of_items l = l.
Proof. intros Hnd. unfold Dict.of_items. by rewrite of_items_acc. Qed.

Lemma set_id k v d :
  Dict.get k d = Some v → Dict.set k v d = d.
Proof.
  induction d as [|[k' v'] d IH]; simpl; [done|].
  case_decide; subst; [by intros [= ->] | intros; by rewrite IH].
Qed.

Lemma set_set k v v' d :
  Dict.set k v' (Dict.set k v d) = Dict.set k v' d.
Proof.
  induction d as [|[k0 v0] d IH]; simpl.
  - by rewrite decide_True.
  - case_decide; simpl; subst; [by rewrite decide_True|].
    rewrite decide_False by done. by rewrite IH.
Qed.

Lemma keys_del k d :
  NoDup (Dict.keys d) → Dict.keys (Dict.del k d) = filter (λ x, x ≠ k) (Dict.keys d).
Proof.
  unfold Dict.keys. induction d as [|[k0 v0] d IH]; simpl; [done|].
  intros Hnd. apply NoDup_cons in Hnd as [Hk Hnd].
  case_decide; subst.
  - rewrite filter_cons_False by (intros Hne; by apply Hne).
    symmetry. apply filter_all. apply Forall_forall.
    intros x Hx ->. done.
  - rewrite filter_cons_True by done. rewrite fmap_cons. simpl. f_equal. by apply IH.
Qed.

Lemma get_fold_set_Some (l : list (K * V)) d k v :
  Dict.get k (fold_left (λ d kv, Dict.set kv.1 kv.2 d) l d) = Some v →
  (k, v) ∈ l ∨ Dict.get k d = Some v.
Proof.
  revert d. induction l as [|[k' v'] l IH]; intros d; simpl; [by right|].
  intros Hget. apply IH in Hget as [Hin|Hget]; [left; by right|].
  destruct (decide (k' = k)) as [->|Hne].
  - rewrite get_set_eq in Hget. injection Hget as ->. left. left.
  - rewrite get_set_ne in Hget by done. by right.
Qed.

Lemma get_fold_set_is_Some (l : list (K * V)) d k :
  k ∈ Dict.keys l ∨ is_Some (Dict.get k d) →
  is_Some (Dict.get k (fold_left (λ d kv, Dict.set kv.1 kv.2 d) l d)).
Proof.
  unfold Dict.keys. revert d.
  induction l as [|[k' v'] l IH]; intros d; simpl.
  - intros [Hin|?]; [by apply elem_of_nil in Hin | done].
  - intros Hk. apply IH.
    destruct (decide (k' = k)) as [->|Hne].
    + right. rewrite get_set_eq. by eexists.
    + rewrite get_set_ne by done.
      destruct Hk as [Hin|?]; [|by right].
      apply elem_of_cons in Hin as [?|?]; [congruence | by left].
Qed.

End DictFacts.

(** ** Encoding *)
Section EncodeFacts.
Context {Complex : Type} {P : Type} `{Number P}.
Implicit Types (ts : TransitionSystem Complex P) (d : list (State * Z)).
Implicit Types (it : list State) (s : State).

Lemma numbered_cons n s l :
  numbered n (s :: l) = (s, Z.of_nat (S n)) :: numbered (S n) l.
Proof. reflexivity. Qed.

Lemma keys_numbered n l : Dict.keys (numbered n l) = l.
Proof.
  unfold Dict.keys, numbered. apply fst_zip.
  by rewrite length_fmap, length_seq.
Qed.

Lemma values_numbered n l :
  Dict.values (numbered n l) = Z.of_nat <$> seq (S n) (length l).
Proof.
  unfold Dict.values, numbered. apply snd_zip.
  by rewrite length_fmap, length_seq.
Qed.

Lemma length_numbered n l : length (numbered n l) = length l.
Proof.
  unfold numbered. rewrite length_zip_with, length_fmap, length_seq. lia.
Qed.

Lemma encode_states_get_None it d s :
  s ∉ it → Dict.get s d = None → Dict.get s (encode_states it d) = None.
Proof.
  unfold encode_states. revert d.
  induction it as [|x it IH]; intros d Hs Hd; simpl; [done|].
  apply not_elem_of_cons in Hs as [Hx Hs].
  apply IH; [done|]. unfold Dict.mem.
  destruct (Dict.get x d); [done|]. by rewrite get_set_ne.
Qed.

Lemma encode_states_spec it d :
  NoDup it → NoDup (Dict.keys d) →
  encode_states it d
  = d ++ numbered (length d) (filter (λ s, s ∉ Dict.keys d) it).
Proof.
  unfold encode_states. revert d.
  induction it as [|x it IH]; intros d Hit Hd; simpl.
  - by rewrite app_nil_r.
  - apply NoDup_cons in Hit as [Hx Hit]. unfold Dict.mem.
    destruct (Dict.get x d) as [c|] eqn:Hget.
    + rewrite filter_cons_False; [by apply IH|].
      intros Hn. apply get_None in Hn. congruence.
    + apply get_None in Hget as Hnotin.
      rewrite filter_cons_True by done.
      rewrite set_fresh by done. rewrite IH; [|done|].
      * rewrite length_app, <- app_assoc. simpl.
        rewrite numbered_cons. f_equal. f_equal; [do 2 f_equal; lia|].
        replace (length d + 1)%nat with (S (length d)) by lia. f_equal.
        apply filter_ext_elem. intros s Hsit. unfold Dict.keys.
        rewrite fmap_app, not_elem_of_app. simpl.
        split; [tauto|]. intros Hs. split; [done|].
        rewrite list_elem_of_singleton. by intros ->.
      * unfold Dict.keys in *. rewrite fmap_app. simpl.
        apply NoDup_app. split_and!; [done| |apply NoDup_singleton].
        intros y Hy. rewrite list_elem_of_singleton. by intros ->.
Qed.

Lemma canonical_extend it d :
  NoDup it → canonical d →
  canonical (d ++ numbered (length d) (filter (λ s, s ∉ Dict.keys d) it)).
Proof.
  intros Hit [Hk Hv]. split.
  - unfold Dict.keys in *. rewrite fmap_app. apply NoDup_app. split_and!.
    + done.
    + intros s Hs. fold (Dict.keys (numbered (length d)
        (filter (λ s, s ∉ d.*1) it))). rewrite keys_numbered.
      rewrite list_elem_of_filter. tauto.
    + fold (Dict.keys (numbered (length d) (filter (λ s, s ∉ d.*1) it))).
      rewrite keys_numbered. by apply NoDup_filter.
  - unfold Dict.values in *. rewrite fmap_app, Hv.
    fold (Dict.values (numbered (length d)
        (filter (λ s, s ∉ Dict.keys d) it))).
    rewrite values_numbered, length_app, length_numbered, <- fmap_app.
    by rewrite (seq_app (length d)).
Qed.

Lemma canonical_values_NoDup d : canonical d → NoDup (Dict.values d).
Proof.
  intros [_ Hv]. rewrite Hv.
  apply NoDup_fmap; [apply Nat2Z.inj'|apply NoDup_seq].
Qed.

Lemma canonical_positive d s c : canonical d → Dict.get s d = Some c → 1 ≤ c.
Proof.
  intros [_ Hv] Hget. apply get_Some_elem in Hget.
  apply (list_elem_of_fmap_2 snd) in Hget. simpl in Hget.
  fold (Dict.values d) in Hget. rewrite Hv in Hget.
  apply list_elem_of_fmap in Hget as (n & -> & Hn).
  apply elem_of_seq in Hn. lia.
Qed.

Lemma values_NoDup_inj d s1 s2 c :
  NoDup (Dict.values d) → (s1, c) ∈ d → (s2, c) ∈ d → s1 = s2.
Proof.
  unfold Dict.values. induction d as [|[k v] d IH]; simpl; intros Hnd H1 H2.
  - by apply elem_of_nil in H1.
  - apply NoDup_cons in Hnd as [Hv Hnd].
    apply elem_of_cons in H1 as [E1|H1]; apply elem_of_cons in H2 as [E2|H2];
      simplify_eq; auto.
    + exfalso. apply Hv. by apply (list_elem_of_fmap_2 snd) in H2.
    + exfalso. apply Hv. by apply (list_elem_of_fmap_2 snd) in H1.
Qed.

(** The decoding of an encoding without repeated codes is the encoding
    with each item swapped. *)
Lemma create_decoding_swap ts :
  NoDup (Dict.values (states_encoding ts)) →
  create_decoding ts = (λ kv, (kv.2, kv.1)) <$> states_encoding ts.
Proof.
  intros Hnd. unfold create_decoding. apply of_items_NoDup.
  unfold Dict.keys. rewrite <- list_fmap_compose. exact Hnd.
Qed.

Lemma decoding_get ts s c :
  NoDup (Dict.values (states_encoding ts)) →
  (s, c) ∈ states_encoding ts → Dict.get c (create_decoding ts) = Some s.
Proof.
  intros Hnd Hin. rewrite create_decoding_swap by done.
  apply elem_get.
  - unfold Dict.keys. rewrite <- list_fmap_compose. exact Hnd.
  - by apply (list_elem_of_fmap_2 (λ kv : State * Z, (kv.2, kv.1))) in Hin.
Qed.

Lemma encode_each_Ok d (es es' : list (Edge P)) :
  encode_each d es = (Ok tt, es') →
  Forall2 (λ e e', Edge_encode d e = Ok e') es es'.
Proof.
  revert es'. induction es as [|e es IH]; intros es'; simpl.
  - intros [= <-]. constructor.
  - destruct (Edge_encode d e) as [e'|x] eqn:He; [|done].
    destruct (encode_each d es) as [r es''] eqn:Hes.
    intros [= -> <-]. constructor; auto.
Qed.

Lemma encode_each_total d (es : list (Edge P)) :
  Forall (λ e, is_Some (state_item d (source e)) ∧
               is_Some (state_item d (target e))) es →
  ∃ es', encode_each d es = (Ok tt, es').
Proof.
  induction 1 as [|e es [[a Ha] [b Hb]] _ [es' IH]]; simpl; [by eexists|].
  unfold Edge_encode. rewrite Ha, Hb, IH. by eexists.
Qed.

Lemma encode_run it init_state ts :
  encode it init_state ts =
  let d := encode_states it (states_encoding ts) in
  match Dict.get init_state d with
  | Some code =>
      let '(r, es) := encode_each d (edges ts) in
      (r, mkTS d es (ordering ts) (Some code) (unprocessed ts) [])
  | None => (Raise KeyError, set_states_encoding d ts)
  end.
Proof.
  unfold encode, bind, modify, get, item, encode_edges. simpl.
  destruct (Dict.get init_state _); simpl; [|done].
  by destruct (encode_each _ _).
Qed.

End EncodeFacts.

Section EncodeClaims.
Context {Complex : Type} {P : Type} `{Number P}.
Implicit Types (ts : TransitionSystem Complex P) (it : list State).

(** C2. Encoding stability.  On a system whose encoding is empty, or holds
    the codes 1, ..., k as earlier calls of [encode] leave them, and for any
    order [it] in which the distinct staged states are iterated: the call
    returns whenever the initial state and the endpoints of the edges have a
    code afterwards; when it returns, the states not coded before get the
    codes following the ones in use, one by one in iteration order (so 1, 2,
    ... on an empty encoding), the codes in use are again 1, 2, ..., every
    state gets a positive code that the decoding maps back to it, no two
    states share a code, and the endpoints of every edge are codes that the
    decoding knows. *)
Theorem encode_encoding_stable it init_state ts :
  canonical (states_encoding ts) →
  iterates it ts →
  let fresh := filter (λ s, s ∉ Dict.keys (states_encoding ts)) it in
  let encoding :=
    states_encoding ts ++ numbered (length (states_encoding ts)) fresh in
  (is_Some (Dict.get init_state encoding) →
   Forall (λ e, is_Some (state_item encoding (source e)) ∧
                is_Some (state_item encoding (target e))) (edges ts) →
   ∃ ts', encode it init_state ts = (Ok tt, ts')) ∧
  ∀ ts', encode it init_state ts = (Ok tt, ts') →
    states_encoding ts' = encoding ∧
    canonical (states_encoding ts') ∧
    (∀ s, s ∈ it ∨ s ∈ Dict.keys (states_encoding ts) →
       ∃ c, Dict.get s (states_encoding ts') = Some c ∧ 1 ≤ c ∧
            Dict.get c (create_decoding ts') = Some s) ∧
    (∀ s s' c, Dict.get s (states_encoding ts') = Some c →
               Dict.get s' (states_encoding ts') = Some c → s = s') ∧
    Forall (λ e, ∃ a b, source e = VCode a ∧ target e = VCode b ∧
                        is_Some (Dict.get a (create_decoding ts')) ∧
                        is_Some (Dict.get b (create_decoding ts')))
      (edges ts').
Proof.
  intros Hcan [Hit Hstaged] fresh encoding.
  assert (Hspec : encode_states it (states_encoding ts) = encoding)
    by (apply encode_states_spec; [done | apply Hcan]).
  assert (Hcan' : canonical encoding) by by apply canonical_extend.
  pose proof (canonical_values_NoDup _ Hcan') as Hvals.
  rewrite encode_run. simpl. rewrite Hspec. split.
  - intros [code ->] Hedges.
    destruct (encode_each_total _ _ Hedges) as [es' ->]. by eexists.
  - intros ts'. destruct (Dict.get init_state encoding) as [code|]; [|done].
    destruct (encode_each encoding (edges ts)) as [r es'] eqn:Hes.
    intros [= -> <-]. simpl. apply encode_each_Ok in Hes.
    set (ts' := mkTS encoding es' _ _ _ _).
    assert (Hdec : ∀ s c, Dict.get s encoding = Some c →
                          Dict.get c (create_decoding ts') = Some s).
    { intros s c Hget. apply decoding_get; [done|]. by apply get_Some_elem. }
    split_and!.
    + done.
    + exact Hcan'.
    + intros s Hs.
      destruct (Dict.get s encoding) as [c|] eqn:Hget.
      * exists c. split_and!; [done | by eapply canonical_positive | auto].
      * exfalso. apply get_None in Hget. apply Hget.
        unfold encoding, Dict.keys. rewrite fmap_app, elem_of_app.
        fold (Dict.keys (states_encoding ts)).
        fold (Dict.keys (numbered (length (states_encoding ts)) fresh)).
        rewrite keys_numbered. unfold fresh. rewrite list_elem_of_filter.
        destruct (decide (s ∈ Dict.keys (states_encoding ts))); tauto.
    + intros s s' c Hs Hs'.
      eapply values_NoDup_inj; [done | by apply get_Some_elem..].
    + set (dec := create_decoding ts') in *. clearbody dec. subst ts'. simpl.
      clear -Hes Hdec.
      induction Hes as [|e e' es es' He _ IH]; constructor; [|done].
      unfold Edge_encode in He.
      destruct (source e) as [a|]; simpl in He; [|done].
      destruct (Dict.get a encoding) as [ca|] eqn:Ha; [|done].
      destruct (target e) as [b|]; simpl in He; [|done].
      destruct (Dict.get b encoding) as [cb|] eqn:Hb; [|done].
      injection He as <-. simpl. exists ca, cb.
      rewrite (Hdec _ _ Ha), (Hdec _ _ Hb). eauto.
Qed.

(** C6, as amended.  When [encode] returns, [processed] is empty and
    [unprocessed] is what it was before the call. *)
Theorem encode_clears_processed it init_state ts ts' :
  encode it init_state ts = (Ok tt, ts') →
  processed ts' = [] ∧ unprocessed ts' = unprocessed ts.
Proof.
  rewrite encode_run. simpl.
  destruct (Dict.get init_state _); [|done].
  destruct (encode_each _ _). by intros [= _ <-].
Qed.

(** C10. An initial state that is neither coded nor staged makes [encode]
    raise [KeyError]; [init] keeps the value it had (none, on a system that
    was never encoded), and so do the edges and [processed]. *)
Theorem encode_unknown_init it init_state ts :
  iterates it ts →
  init_state ∉ Dict.keys (states_encoding ts) →
  init_state ∉ processed ts →
  init_state ∉ unprocessed ts →
  ∃ ts', encode it init_state ts = (Raise KeyError, ts') ∧
         init ts' = init ts ∧ edges ts' = edges ts ∧
         processed ts' = processed ts.
Proof.
  intros [_ Hstaged] Hcoded Hp Hu. rewrite encode_run. simpl.
  rewrite encode_states_get_None.
  - by eexists.
  - rewrite Hstaged. tauto.
  - by apply get_None.
Qed.

End EncodeClaims.

Section EncodeExamples.
Import Examples.

Lemma encode_encoding_stable_witness :
  canonical (states_encoding building) ∧
  iterates [s0; s1] building ∧
  encode [s0; s1] s0 building = (Ok tt, encoded) ∧
  Dict.get s1 (states_encoding encoded) = Some 2 ∧
  Dict.get 2 (create_decoding encoded) = Some s1.
Proof.
  assert (Hcan : canonical (states_encoding building)).
  { split; [apply NoDup_nil_2 | reflexivity]. }
  assert (Hit : iterates [s0; s1] building).
  { split.
    - apply (bool_decide_unpack _). vm_compute. exact I.
    - intros s. simpl. rewrite !elem_of_cons, !elem_of_nil. tauto. }
  destruct (encode_encoding_stable [s0; s1] s0 building Hcan Hit) as [_ Hprops].
  specialize (Hprops encoded eq_refl) as (_ & _ & _ & _ & _).
  split_and!; [exact Hcan | exact Hit | reflexivity..].
Defined.

Lemma encode_clears_processed_witness :
  encode [s0; s1] s0 building = (Ok tt, encoded) ∧
  processed encoded = [] ∧ unprocessed encoded = unprocessed building.
Proof.
  split; [reflexivity|].
  exact (encode_clears_processed [s0; s1] s0 building encoded eq_refl).
Defined.

(** C6 as stated fails: [unprocessed] is not emptied. *)
Lemma encode_keeps_unprocessed :
  encode [s0; s1] s0 building = (Ok tt, encoded) ∧
  ¬ (processed encoded = [] ∧ unprocessed encoded = []).
Proof. split; [reflexivity|]. by intros [_ ?]. Qed.

Lemma encode_unknown_init_witness :
  iterates [s0; s1] building ∧
  (s2 ∉ Dict.keys (states_encoding building)) ∧
  (s2 ∉ processed building) ∧ (s2 ∉ unprocessed building) ∧
  ∃ ts', encode [s0; s1] s2 building = (Raise KeyError, ts') ∧
         init ts' = init building ∧ edges ts' = edges building ∧
         processed ts' = processed building.
Proof.
  assert (Hit : iterates [s0; s1] building).
  { split.
    - apply (bool_decide_unpack _). vm_compute. exact I.
    - intros s. simpl. rewrite !elem_of_cons, !elem_of_nil. tauto. }
  assert (H1 : s2 ∉ Dict.keys (states_encoding building))
    by (apply (bool_decide_unpack _); vm_compute; exact I).
  assert (H2 : s2 ∉ processed building)
    by (apply (bool_decide_unpack _); vm_compute; exact I).
  assert (H3 : s2 ∉ unprocessed building)
    by (apply (bool_decide_unpack _); vm_compute; exact I).
  split_and!; [exact Hit | exact H1 | exact H2 | exact H3 |].
  exact (encode_unknown_init [s0; s1] s2 building Hit H1 H2 H3).
Defined.

End EncodeExamples.

(** ** The overflow state *)
Section ChangeHell.
Context {Complex : Type} {P : Type} `{Number P}.
Implicit Types (ts : TransitionSystem Complex P) (d : list (State * Z)).

Lemma find_flagged d key code :
  NoDup (Dict.keys d) →
  Dict.get key d = Some code →
  is_inf key = true →
  (∀ s, s ∈ Dict.keys d → is_inf s = true → s = key) →
  List.find (λ kv : State * Z, is_inf kv.1) d = Some (key, code).
Proof.
  intros Hnd Hget Hinf Huniq.
  destruct (List.find _ d) as [[k c]|] eqn:Hfind.
  - apply find_some in Hfind as [Hin Hk]. simpl in Hk.
    apply list_elem_of_In in Hin.
    assert (k = key) as ->.
    { apply Huniq; [|done]. by apply (list_elem_of_fmap_2 fst) in Hin. }
    apply (elem_get _ _ _ Hnd) in Hin. congruence.
  - apply get_Some_elem, list_elem_of_In in Hget.
    apply (find_none _ _ Hfind) in Hget. simpl in Hget. congruence.
Qed.

(** C7. On an encoding that holds exactly one state flagged infinite,
    [change_hell(bound)] removes that state and maps the flagged state of
    the same length whose every coordinate is [bound + 1] to the code the
    removed state had; the codes of all other states, the edges, the
    ordering and [init] stay as they were, and the new state is the last key
    of the encoding. *)
Theorem change_hell_replaces bound ts key code :
  NoDup (Dict.keys (states_encoding ts)) →
  Dict.get key (states_encoding ts) = Some code →
  is_inf key = true →
  (∀ s, s ∈ Dict.keys (states_encoding ts) → is_inf s = true → s = key) →
  let hell := mkState (replicate (State_len key) (bound + 1)) true in
  ∃ ts', change_hell bound ts = (Ok tt, ts') ∧
    State_len hell = State_len key ∧
    Dict.get hell (states_encoding ts') = Some code ∧
    (key ≠ hell → Dict.get key (states_encoding ts') = None) ∧
    (∀ s, s ≠ key → s ≠ hell →
       Dict.get s (states_encoding ts') = Dict.get s (states_encoding ts)) ∧
    Dict.keys (states_encoding ts')
      = filter (λ s, s ≠ key) (Dict.keys (states_encoding ts)) ++ [hell] ∧
    edges ts' = edges ts ∧ ordering ts' = ordering ts ∧ init ts' = init ts.
Proof.
  intros Hnd Hget Hinf Huniq hell. unfold change_hell.
  rewrite (find_flagged _ key code) by done. fold hell.
  eexists. split; [reflexivity|]. simpl.
  assert (Hfresh : Dict.get hell (Dict.del key (states_encoding ts)) = None).
  { destruct (decide (key = hell)) as [Heq|Hne];
      [rewrite <- Heq; by apply get_del_eq|].
    rewrite get_del_ne by done. apply get_None. intros Hin.
    apply Hne. symmetry. by apply Huniq. }
  split_and!; try done.
  - unfold State_len, hell. simpl. by rewrite length_replicate.
  - apply get_set_eq.
  - intros Hne. rewrite get_set_ne by done. by apply get_del_eq.
  - intros s Hs Hh. rewrite get_set_ne by done. by apply get_del_ne.
  - rewrite set_fresh by done. unfold Dict.keys at 1.
    rewrite fmap_app. fold (Dict.keys (Dict.del key (states_encoding ts))).
    by rewrite keys_del.
Qed.

End ChangeHell.

Section ChangeHellExamples.
Import Examples.

Lemma change_hell_replaces_witness :
  NoDup (Dict.keys (states_encoding with_overflow)) ∧
  Dict.get overflow (states_encoding with_overflow) = Some 2 ∧
  states_encoding (change_hell 4 with_overflow).2
    = [(s0, 1); (s1, 3); (mkState [5; 5] true, 2)].
Proof.
  assert (Hnd : NoDup (Dict.keys (states_encoding with_overflow)))
    by (apply (bool_decide_unpack _); vm_compute; exact I).
  assert (Huniq : ∀ s, s ∈ Dict.keys (states_encoding with_overflow) →
                       is_inf s = true → s = overflow).
  { intros s. simpl. rewrite !elem_of_cons, elem_of_nil.
    intros [->|[->|[->|[]]]]; done. }
  destruct (change_hell_replaces 4 with_overflow overflow 2 Hnd eq_refl eq_refl Huniq)
    as (ts' & Hrun & _).
  split_and!; [exact Hnd | reflexivity | reflexivity].
Defined.

End ChangeHellExamples.

(** ** Export to STORM *)
Section StormFacts.
Context {Complex : Type} {P : Type} `{Number P} {Str_State : Str State}.
Implicit Types (ts : TransitionSystem Complex P) (w : World (Complex := Complex) (P := P)).
Implicit Types (fs : list (string * string)) (d : list (State * Z)).

Lemma world_eta w : mkWorld (system w) (files w) (openable w) = w.
Proof. by destruct w. Qed.

Lemma set_edges_id ts : set_edges (edges ts) ts = ts.
Proof. by destruct ts. Qed.

Lemma for_each_write {A : Type} (l : list A) (f : A → string) path text w :
  Dict.get path (files w) = Some text →
  for_each l (λ x, write path (f x)) w
  = (Ok tt, mkWorld (system w)
              (Dict.set path (fold_left (λ t x, t +:+ f x) l text) (files w))
              (openable w)).
Proof.
  revert text w. induction l as [|x l IH]; intros text w Hget; simpl.
  - rewrite set_id by done. by rewrite world_eta.
  - unfold bind, write at 1, modify. rewrite Hget. simpl.
    erewrite IH by (simpl; apply get_set_eq). simpl. by rewrite set_set.
Qed.

Lemma for_each_labels d text w path :
  Dict.get path (files w) = Some text →
  for_each d
    (λ kv, if is_hell kv.1
           then write path (str (sequence kv.1) +:+ "deadlock")
           else ret tt) w
  = (Ok tt, mkWorld (system w)
              (Dict.set path
                 (fold_left
                    (λ t kv, if is_hell kv.1
                             then t +:+ (str (sequence kv.1) +:+ "deadlock")
                             else t) d text)
                 (files w))
              (openable w)).
Proof.
  revert text w. induction d as [|kv d IH]; intros text w Hget; simpl.
  - rewrite set_id by done. by rewrite world_eta.
  - unfold bind. destruct (is_hell kv.1).
    + unfold write at 1, modify. rewrite Hget. simpl.
      erewrite IH by (simpl; apply get_set_eq). simpl. by rewrite set_set.
    + unfold ret. by erewrite IH.
Qed.

Lemma for_each_loops d w :
  for_each d
    (λ kv, w <- get ;;
           if has_outgoing_edges (system w) kv.2 then ret tt
           else on_system
                  (λ ts, set_edges
                           (set_add (mkEdge (VCode kv.2) (VCode kv.2) one) (edges ts)) ts))%py
    w
  = (Ok tt, mkWorld (set_edges (with_self_loops d (edges (system w))) (system w))
              (files w) (openable w)).
Proof.
  revert w. induction d as [|kv d IH]; intros w; simpl.
  - by rewrite set_edges_id, world_eta.
  - unfold bind at 1. unfold bind at 1. unfold get at 1.
    unfold has_outgoing_edges.
    destruct (existsb _ (edges (system w))) eqn:Hout.
    + unfold ret at 1. by rewrite IH.
    + unfold on_system, modify. rewrite IH. by destruct w as [[]].
Qed.

(** What a call of the export does, whatever the attribute lookup finds
    and whether or not the files can be opened. *)
Lemma save_to_STORM_explicit_run order_edges_source transitions labels w :
  let ts' := set_edges (with_self_loops (states_encoding (system w))
                          (edges (system w))) (system w) in
  save_to_STORM_explicit_body order_edges_source transitions labels w =
  if openable w transitions then
    match order_edges_source with
    | None =>
        (Raise AttributeError,
         mkWorld ts' (Dict.set transitions ("dtmc" +:+ newline) (files w)) (openable w))
    | Some method =>
        let fs := Dict.set transitions (transitions_text (method ts')) (files w) in
        if openable w labels
        then (Ok tt,
              mkWorld ts' (Dict.set labels (labels_text (states_encoding (system w))) fs)
                (openable w))
        else (Raise OSError, mkWorld ts' fs (openable w))
    end
  else (Raise OSError, w).
Proof.
  intros ts'. unfold save_to_STORM_explicit_body.
  unfold bind at 1, open_w at 1.
  destruct (openable w transitions) eqn:Htransitions; [|done].
  unfold bind at 1, write at 1, modify at 1. simpl files. simpl system. simpl openable.
  rewrite get_set_eq, set_set. simpl default.
  unfold bind at 1, get at 1.
  unfold bind at 1. rewrite for_each_loops. simpl system. simpl files. simpl openable.
  fold ts'. unfold bind at 1.
  destruct order_edges_source as [method|]; simpl item; [|done].
  unfold ret at 1. unfold bind at 1, get at 1. unfold bind at 1.
  erewrite for_each_write by (simpl; apply get_set_eq).
  simpl system. simpl files. simpl openable.
  rewrite set_set. fold (transitions_text (method ts')).
  set (fs1 := Dict.set transitions _ (files w)).
  unfold bind at 1, open_w at 1. simpl system. simpl files. simpl openable.
  destruct (openable w labels) eqn:Hlabels; [|done].
  unfold bind at 1, write at 1, modify at 1. simpl system. simpl files. simpl openable.
  rewrite get_set_eq, set_set. simpl default.
  unfold bind at 1, write at 1, modify at 1. simpl system. simpl files. simpl openable.
  rewrite get_set_eq, set_set. simpl default.
  unfold bind at 1, get at 1.
  erewrite for_each_labels by (simpl; apply get_set_eq).
  simpl system. simpl files. simpl openable. by rewrite set_set.
Qed.

End StormFacts.

Section StormClaims.
Context {Complex : Type} {P : Type} `{Number P} {Str_State : Str State}.
Implicit Types (ts : TransitionSystem Complex P) (w : World (Complex := Complex) (P := P)).
Implicit Types (d : list (State * Z)) (es : list (Edge P)).

Lemma outgoing_app es es' c :
  existsb (λ edge, bool_decide (source edge = VCode c)) (es ++ es')
  = existsb (λ edge, bool_decide (source edge = VCode c)) es
    || existsb (λ edge, bool_decide (source edge = VCode c)) es'.
Proof. apply existsb_app. Qed.

Lemma set_add_app es c :
  ∃ added, set_add (self_loop c) es = es ++ added ∧
           (added = [] ∨ added = [self_loop c]).
Proof.
  unfold set_add. case_bool_decide.
  - exists []. by rewrite app_nil_r; auto.
  - exists [self_loop c]. auto.
Qed.

(** The first loop only appends self-loops, each on the code of a state
    that had no outgoing edge. *)
Lemma with_self_loops_appends d es :
  ∃ added, with_self_loops d es = es ++ added ∧
    Forall (λ e, ∃ kv, kv ∈ d ∧ e = self_loop kv.2 ∧
                       existsb (λ edge, bool_decide (source edge = VCode kv.2)) es = false)
      added.
Proof.
  revert es. induction d as [|kv d IH]; intros es; simpl.
  - exists []. by rewrite app_nil_r.
  - destruct (existsb _ es) eqn:Hout.
    + destruct (IH es) as (added & -> & Hall). exists added. split; [done|].
      eapply Forall_impl; [exact Hall|]. intros e (kv' & ? & ? & ?).
      exists kv'. split_and!; [by right | done..].
    + destruct (set_add_app es kv.2) as (one_more & -> & Hone).
      destruct (IH (es ++ one_more)) as (added & -> & Hall).
      exists (one_more ++ added). split; [by rewrite app_assoc|].
      apply Forall_app. split.
      * destruct Hone as [->| ->]; [constructor|].
        constructor; [|constructor]. exists kv. split_and!; [left | done..].
      * eapply Forall_impl; [exact Hall|]. intros e (kv' & ? & ? & Hno).
        exists kv'. split_and!; [by right | done |].
        rewrite outgoing_app in Hno. by apply orb_false_elim in Hno as [? _].
Qed.

(** The self-loops that the first loop appends are distinct. *)
Lemma with_self_loops_distinct d es :
  ∃ added, with_self_loops d es = es ++ added ∧ NoDup added ∧
    Forall (λ e, ∃ kv, kv ∈ d ∧ e = self_loop kv.2 ∧
                       existsb (λ edge, bool_decide (source edge = VCode kv.2)) es = false)
      added.
Proof.
  revert es. induction d as [|kv d IH]; intros es; simpl.
  - exists []. rewrite app_nil_r. split_and!; [done | apply NoDup_nil_2 | constructor].
  - destruct (existsb _ es) eqn:Hout.
    + destruct (IH es) as (added & -> & Hnd & Hall). exists added.
      split_and!; [done..|].
      eapply Forall_impl; [exact Hall|]. intros e (kv' & ? & ? & ?).
      exists kv'. split_and!; [by right | done..].
    + assert (Hnew : set_add (self_loop kv.2) es = es ++ [self_loop kv.2]).
      { unfold set_add. case_bool_decide as Hin; [|done]. exfalso.
        apply not_true_iff_false in Hout. apply Hout.
        apply existsb_exists. exists (self_loop kv.2).
        split; [by apply list_elem_of_In|]. by apply bool_decide_eq_true_2. }
      rewrite Hnew.
      destruct (IH (es ++ [self_loop kv.2])) as (added & -> & Hnd & Hall).
      exists (self_loop kv.2 :: added). split_and!.
      * by rewrite <- app_assoc.
      * apply NoDup_cons. split; [|done]. intros Hin.
        rewrite Forall_forall in Hall.
        destruct (Hall _ Hin) as (kv' & _ & Heq & Hno).
        rewrite outgoing_app in Hno. apply orb_false_elim in Hno as [_ Hno].
        simpl in Hno. rewrite orb_false_r in Hno.
        apply bool_decide_eq_false_1 in Hno. apply Hno.
        injection Heq as Heq. by rewrite Heq.
      * constructor.
        -- exists kv. split_and!; [left | done..].
        -- eapply Forall_impl; [exact Hall|]. intros e (kv' & ? & ? & Hno).
           exists kv'. split_and!; [by right | done |].
           rewrite outgoing_app in Hno. by apply orb_false_elim in Hno as [? _].
Qed.

(** Were the attribute found, and did it return the edges in some order,
    every state of the encoding would have a line in the transitions file,
    and a state without outgoing edge the line "{code} {code} 1". *)
Lemma with_self_loops_covers d es s c :
  (s, c) ∈ d →
  existsb (λ edge, bool_decide (source edge = VCode c)) (with_self_loops d es) = true ∧
  (existsb (λ edge, bool_decide (source edge = VCode c)) es = false →
   self_loop c ∈ with_self_loops d es).
Proof.
  revert es. induction d as [|kv d IH]; intros es Hin; [by apply elem_of_nil in Hin|].
  simpl. apply elem_of_cons in Hin as [<-|Hin]; simpl.
  - destruct (existsb _ es) eqn:Hout.
    + destruct (with_self_loops_appends d es) as (added & -> & _).
      rewrite outgoing_app, Hout. done.
    + destruct (with_self_loops_appends d (set_add (self_loop c) es))
        as (added & -> & _).
      assert (Hloop : self_loop c ∈ set_add (self_loop c) es).
      { unfold set_add. case_bool_decide; [done|]. apply elem_of_app. right. left. }
      split.
      * rewrite outgoing_app. apply orb_true_intro. left.
        apply existsb_exists. exists (self_loop c).
        split; [by apply list_elem_of_In|]. by apply bool_decide_eq_true_2.
      * intros _. apply elem_of_app. by left.
  - set (es1 := if existsb _ es then es else _).
    destruct (IH es1 Hin) as [Hcov Hnew]. split; [done|]. intros Hout.
    destruct (existsb (λ edge, bool_decide (source edge = VCode c)) es1) eqn:Hout1;
      [|by apply Hnew].
    subst es1. destruct (existsb _ es) eqn:Hk; [congruence|].
    destruct (set_add_app es kv.2) as (one_more & Heq & Hone).
    rewrite Heq in Hout1 |- *.
    rewrite outgoing_app, Hout in Hout1. simpl in Hout1.
    destruct Hone as [->| ->]; [done|]. simpl in Hout1.
    rewrite orb_false_r in Hout1. apply bool_decide_eq_true_1 in Hout1.
    injection Hout1 as ->.
    destruct (with_self_loops_appends d (es ++ [self_loop c])) as (added & -> & _).
    apply elem_of_app. left. apply elem_of_app. right. left.
Qed.

Lemma str_self_loop (c : Z) :
  str (self_loop c) = str c +:+ " " +:+ str c +:+ " " +:+ "1".
Proof. unfold str at 1, Str_Edge. simpl. by rewrite str_one. Qed.

(** C5, as amended.  On a path that cannot be opened the export raises
    [OSError] and changes nothing.  Otherwise, whatever its outcome, the
    encoding, the ordering, [init] and the staging sets of the system are
    what they were, every edge is still there, and the edges that were
    added are the self-loops of weight 1 on the codes of the states that
    had no outgoing edge: one for each such code, and nothing else. *)
Theorem save_to_STORM_explicit_only_adds_self_loops
    order_edges_source transitions labels w :
  let r := save_to_STORM_explicit_body order_edges_source transitions labels w in
  if openable w transitions then
    states_encoding (system r.2) = states_encoding (system w) ∧
    ordering (system r.2) = ordering (system w) ∧
    init (system r.2) = init (system w) ∧
    processed (system r.2) = processed (system w) ∧
    unprocessed (system r.2) = unprocessed (system w) ∧
    ∃ added, edges (system r.2) = edges (system w) ++ added ∧ NoDup added ∧
      ∀ e, e ∈ added ↔ ∃ s c, (s, c) ∈ states_encoding (system w) ∧
                              e = self_loop c ∧
                              has_outgoing_edges (system w) c = false
  else r = (Raise OSError, w).
Proof.
  intros r. subst r. rewrite save_to_STORM_explicit_run.
  destruct (openable w transitions); [|done].
  destruct (with_self_loops_distinct (states_encoding (system w)) (edges (system w)))
    as (added & Heq & Hnd & Hall).
  assert (Hexact : ∀ e, e ∈ added ↔ ∃ s c, (s, c) ∈ states_encoding (system w) ∧
                              e = self_loop c ∧
                              has_outgoing_edges (system w) c = false).
  { intros e. split.
    - intros He. rewrite Forall_forall in Hall.
      destruct (Hall e He) as ([s c] & ? & ? & ?). by exists s, c.
    - intros (s & c & Hin & -> & Hout).
      destruct (with_self_loops_covers _ (edges (system w)) s c Hin) as [_ Hloop].
      specialize (Hloop Hout). rewrite Heq in Hloop.
      apply elem_of_app in Hloop as [Hold|Hnew]; [|done]. exfalso.
      apply not_true_iff_false in Hout. apply Hout. unfold has_outgoing_edges.
      apply existsb_exists. exists (self_loop c).
      split; [by apply list_elem_of_In|]. by apply bool_decide_eq_true_2. }
  assert (Hedges : ∃ added', edges (system w) ++ added = edges (system w) ++ added' ∧
                     NoDup added' ∧
                     ∀ e, e ∈ added' ↔ ∃ s c, (s, c) ∈ states_encoding (system w) ∧
                              e = self_loop c ∧
                              has_outgoing_edges (system w) c = false)
    by by exists added.
  destruct order_edges_source as [method|]; [destruct (openable w labels)|];
    simpl; rewrite Heq; by split_and!.
Qed.

Lemma save_to_STORM_explicit_if_method_found method transitions labels w s c :
  openable w transitions = true →
  (∀ ts, method ts ≡ₚ edges ts) →
  (s, c) ∈ states_encoding (system w) →
  let w' := (save_to_STORM_explicit_body (Some method) transitions labels w).2 in
  ∃ lines,
    (transitions ≠ labels →
     Dict.get transitions (files w') = Some (transitions_text lines)) ∧
    (∃ e, e ∈ lines ∧ source e = VCode c) ∧
    (has_outgoing_edges (system w) c = false → self_loop c ∈ lines).
Proof.
  intros Hopen Hperm Hin w'. subst w'. rewrite save_to_STORM_explicit_run, Hopen.
  set (ts' := set_edges _ (system w)).
  exists (method ts'). split_and!.
  - intros Hne. destruct (openable w labels); simpl.
    + rewrite get_set_ne by done. apply get_set_eq.
    + apply get_set_eq.
  - destruct (with_self_loops_covers _ (edges (system w)) s c Hin) as [Hcov _].
    apply existsb_exists in Hcov as (e & He & Hsrc).
    exists e. split; [|by apply bool_decide_eq_true_1 in Hsrc].
    rewrite (Hperm ts'). by apply list_elem_of_In.
  - intros Hout. rewrite (Hperm ts').
    by apply (with_self_loops_covers _ (edges (system w)) s c Hin).
Qed.

End StormClaims.

Section StormExamples.
Import Examples.

(** C5 as stated fails: the export adds an edge to the system. *)
Lemma save_to_STORM_explicit_changes_edges :
  edges (system (save_to_STORM_explicit (Str_State := State_str)
                   "transitions" "labels" (mkWorld encoded [] writable)).2)
  ≠ edges encoded.
Proof. vm_compute. discriminate. Qed.

(** C4 on the code as it is: state [s1] of [encoded], code 2, has no
    outgoing edge; the call raises [AttributeError] at the lookup of
    [order_edges_source], and the transitions file holds the line [dtmc]
    and nothing else. *)
Theorem save_to_STORM_explicit_writes_no_self_loop :
  has_outgoing_edges encoded 2 = false ∧
  save_to_STORM_explicit (Str_State := State_str)
    "transitions" "labels" (mkWorld encoded [] writable)
  = (Raise AttributeError,
     mkWorld (set_edges (edges encoded ++ [self_loop 2]) encoded)
       [("transitions", "dtmc" +:+ newline)] writable).
Proof. split; reflexivity. Qed.

(** C3 on the code as it is: in [collapsed] the overflow state has code 2.
    The call raises before the labels file is opened; and were the
    attribute found, the line written for the state would hold its vector,
    not its code. *)
Theorem save_to_STORM_explicit_labels_hold_vector :
  (let r := save_to_STORM_explicit (Str_State := State_str)
              "transitions" "labels" (mkWorld collapsed [] writable) in
   r.1 = Raise AttributeError ∧ Dict.get "labels" (files r.2) = None) ∧
  (∀ method,
     Dict.get "labels"
       (files (save_to_STORM_explicit_body (Str_State := State_str) (Some method)
                 "transitions" "labels" (mkWorld collapsed [] writable)).2)
     = Some (labels_header +:+ "[5 5]deadlock")) ∧
  labels_header +:+ "[5 5]deadlock" ≠ labels_header +:+ "2deadlock".
Proof.
  split_and!.
  - split; reflexivity.
  - intros method. rewrite save_to_STORM_explicit_run.
    cbn [openable writable]. cbn [snd files]. rewrite get_set_eq. reflexivity.
  - vm_compute. discriminate.
Qed.

End StormExamples.

(** ** Vectorisation of rates *)
Section RateFacts.
Import Rate.
Context {Complex Value : Type}.
Variable compatible : Complex → Complex → bool.
Context {Str_object : Str (node (Complex := Complex) (Value := Value))}.
Variable ordering : list Complex.
Variable definitions : list (string * Value).

Abbreviation node := (node (Complex := Complex) (Value := Value)).
Abbreviation vec := (Vectorizer compatible ordering definitions).
Abbreviation vector := (compatibility compatible ordering).
Abbreviation vectorised := (vectorised (Value := Value) compatible ordering).
Abbreviation transformed := (transformed compatible ordering definitions).
Abbreviation described := (vectorized compatible ordering definitions).

Lemma node_rect' (Q : node → Prop) :
  (∀ data children, Forall Q children → Q (Tree data children)) →
  (∀ type value, Q (Token type value)) →
  (∀ c, Q (Pattern c)) →
  (∀ s, Q (Vec s)) →
  (∀ v, Q (Num v)) →
  ∀ t, Q t.
Proof.
  intros HTree HToken HPattern HVec HNum.
  fix rec 1.
  intros [data children|type value|c|s|v];
    [|apply HToken|apply HPattern|apply HVec|apply HNum].
  apply HTree. induction children as [|c children IH]; constructor;
    [apply rec | exact IH].
Qed.

Lemma traverse_bits c (l : list Complex) :
  traverse (compatible_bit compatible (Pattern (Value := Value) c)) l
  = Ok ((λ species, if compatible c species then 1 else 0) <$> l).
Proof. induction l as [|x l IH]; simpl; [done|]. by rewrite IH. Qed.

Lemma Vectorizer_agent_run c (rest : list node) visited :
  Vectorizer_agent compatible ordering (Pattern c :: rest) visited
  = (Ok (Tree "agent" [Vec (vector c)]), visited ++ [vector c]).
Proof.
  unfold Vectorizer_agent, bind, item, lift. simpl.
  by rewrite traverse_bits.
Qed.

Lemma vectorised_mono ps ps' children :
  ps ⊆ ps' → vectorised ps children → vectorised ps' children.
Proof. intros Hsub (c & Hc & ->). exists c. auto. Qed.

Lemma transformed_children (children : list node) :
  Forall transformed children →
  forallb parsed children = true →
  ∀ visited,
    ∃ children',
      sequence_M (List.map (transform_tree vec) children) visited
      = (Ok children',
         visited ++ (vector <$> List.concat (List.map patterns children))) ∧
      Forall (λ t', Forall (vectorised (List.concat (List.map patterns children)))
                      (agent_nodes t')) children' ∧
      length children' = length children ∧
      (∀ c rest, children = Pattern c :: rest → ∃ rest', children' = Pattern c :: rest').
Proof.
  induction 1 as [|t children Ht _ IH]; intros Hparsed visited; simpl.
  - exists []. rewrite app_nil_r. split_and!; [done | constructor | done |done].
  - simpl in Hparsed. apply andb_prop in Hparsed as [Hp Hps].
    destruct (Ht visited Hp) as (t' & Hrun & Hagents & Hleaf).
    destruct (IH Hps (visited ++ (vector <$> patterns t)))
      as (children' & Hrun' & Hagents' & Hlen & _).
    exists (t' :: children'). unfold bind. rewrite Hrun, Hrun'. split_and!.
    + unfold ret. by rewrite fmap_app, app_assoc.
    + constructor.
      * eapply Forall_impl; [exact Hagents|]. intros ch.
        apply vectorised_mono. intros c Hc. apply elem_of_app. by left.
      * eapply Forall_impl; [exact Hagents'|]. intros t'' Ht''.
        eapply Forall_impl; [exact Ht''|]. intros ch.
        apply vectorised_mono. intros c Hc. apply elem_of_app. by right.
    + simpl. by rewrite Hlen.
    + intros c rest [= -> ->]. rewrite Hleaf. by eexists.
Qed.

Lemma agent_nodes_children (ps : list Complex) data (children : list node) :
  data ≠ "agent" →
  Forall (λ t', Forall (vectorised ps) (agent_nodes t')) children →
  Forall (vectorised ps) (agent_nodes (Tree data children)).
Proof.
  intros Hdata Hall. simpl. rewrite decide_False by done. simpl.
  induction Hall as [|t l Ht _ IH]; simpl; [constructor|].
  apply Forall_app. by split.
Qed.

Lemma transform_tree_parsed t : transformed t.
Proof.
  induction t as [data children IH| | | |] using node_rect';
    try (intros visited _; eexists; simpl; rewrite app_nil_r;
         split_and!; [reflexivity | constructor | reflexivity]).
  intros visited Hparsed. simpl in Hparsed.
  apply andb_prop in Hparsed as [Hps Hshape].
  destruct (transformed_children children IH Hps visited)
    as (children' & Hrun & Hagents & Hlen & Hhead).
  simpl transform_tree. unfold bind at 1. rewrite Hrun.
  simpl patterns. unfold Vectorizer.
  set (inner := List.concat (List.map patterns children)) in *.
  destruct (decide (data = "agent")) as [->|Hagent].
  - destruct children as [|[| |c| |] rest]; try done.
    destruct (Hhead c rest eq_refl) as (rest' & ->).
    rewrite Vectorizer_agent_run. eexists. split_and!.
    + by rewrite fmap_app, app_assoc.
    + simpl. constructor; [|constructor]. exists c. split; [|done].
      apply elem_of_app. right. left.
    + done.
  - rewrite app_nil_r.
    destruct (decide (data = "rate_agent")) as [->|Hrate].
    + apply bool_decide_eq_true_1 in Hshape. rewrite <- Hlen in Hshape.
      destruct children' as [|a [|b rest]]; simpl in Hshape; try lia.
      exists b. unfold Vectorizer_rate_agent. simpl. split_and!; [done| |done].
      apply Forall_cons in Hagents as [_ Hagents].
      by apply Forall_cons in Hagents as [Hb _].
    + destruct (decide (data = "param")) as [->|Hparam].
      * apply bool_decide_eq_true_1 in Hshape. rewrite <- Hlen in Hshape.
        destruct children' as [|a rest]; simpl in Hshape; try lia.
        unfold Vectorizer_param, bind. simpl. eexists. split_and!; [done| |done].
        destruct (Dict.get (node_str a) definitions); simpl; [constructor|].
        by apply (agent_nodes_children inner "param" (a :: rest)).
      * exists (Tree data children'). split_and!; [done| |done].
        by apply agent_nodes_children.
Qed.

(** The vector of a pattern: as long as the ordering, not flagged, and 1 at
    exactly the positions of the species the pattern is compatible with. *)
Lemma compatibility_bits c :
  State_len (vector c) = length ordering ∧
  is_inf (vector c) = false ∧
  (∀ i species, ordering !! i = Some species →
     (sequence (vector c) !! i = Some 1 ↔ compatible c species = true) ∧
     (sequence (vector c) !! i = Some 0 ↔ compatible c species = false)) ∧
  ((∀ species, species ∈ ordering → compatible c species = false) →
   sequence (vector c) = replicate (length ordering) 0).
Proof.
  unfold State_len, compatibility. simpl. split_and!.
  - by rewrite length_fmap.
  - done.
  - intros i species Hi. rewrite list_lookup_fmap, Hi. simpl.
    destruct (compatible c species); split; split; intros; done.
  - clear. induction ordering as [|x l IH]; intros Hnone; simpl; [done|].
    rewrite Hnone by left. f_equal. apply IH. intros. apply Hnone. by right.
Qed.

(** The transformer computes the described expression. *)
Lemma transform_children_described (children : list node) :
  Forall (λ t, parsed t = true → ∀ visited,
            transform_tree vec t visited
            = (Ok (described t), visited ++ (vector <$> patterns t))) children →
  forallb parsed children = true →
  ∀ visited,
    sequence_M (List.map (transform_tree vec) children) visited
    = (Ok (List.map described children),
       visited ++ (vector <$> List.concat (List.map patterns children))).
Proof.
  induction 1 as [|t children Ht _ IH]; intros Hparsed visited; simpl.
  - by rewrite app_nil_r.
  - simpl in Hparsed. apply andb_prop in Hparsed as [Hp Hps].
    unfold bind. rewrite (Ht Hp visited), IH by done. unfold ret.
    by rewrite fmap_app, app_assoc.
Qed.

Lemma transform_tree_described t :
  parsed t = true → ∀ visited,
    transform_tree vec t visited = (Ok (described t), visited ++ (vector <$> patterns t)).
Proof.
  induction t as [data children IH| | | |] using node_rect';
    try (intros _ visited; simpl; by rewrite app_nil_r).
  intros Hparsed visited. simpl in Hparsed.
  apply andb_prop in Hparsed as [Hps Hshape].
  simpl transform_tree. unfold bind at 1.
  rewrite (transform_children_described children IH Hps visited).
  simpl patterns. cbn [vectorized]. unfold Vectorizer.
  destruct (decide (data = "agent")) as [->|Hagent].
  - destruct children as [|[| |c| |] rest]; try done.
    simpl List.map. rewrite Vectorizer_agent_run.
    by rewrite fmap_app, app_assoc.
  - rewrite app_nil_r. destruct (decide (data = "rate_agent")) as [->|Hrate].
    + apply bool_decide_eq_true_1 in Hshape.
      destruct children as [|a [|b rest]]; simpl in Hshape; try lia. done.
    + destruct (decide (data = "param")) as [->|Hparam]; [|done].
      apply bool_decide_eq_true_1 in Hshape.
      destruct children as [|a rest]; simpl in Hshape; try lia. done.
Qed.

(** In an expression of the grammar the agent nodes correspond, one by
    one, to the patterns, before and after the rewriting. *)
Lemma tokens_hold_no_agent (l : list node) :
  forallb is_token l = true →
  List.concat (List.map patterns l) = [] ∧
  List.concat (List.map agent_nodes l) = [] ∧
  List.map described l = l.
Proof.
  induction l as [|t l IH]; [done|]. simpl.
  intros [Ht Hl]%andb_prop. destruct (IH Hl) as (-> & -> & ->).
  by destruct t.
Qed.

Lemma grammatical_children (children : list node) :
  Forall (λ t, grammatical t = true →
            agent_nodes t = (λ c, [Pattern c]) <$> patterns t ∧
            agent_nodes (described t) = (λ c, [Vec (vector c)]) <$> patterns t)
    children →
  forallb grammatical children = true →
  List.concat (List.map agent_nodes children)
  = (λ c, [Pattern c]) <$> List.concat (List.map patterns children) ∧
  List.concat (List.map agent_nodes (List.map described children))
  = (λ c, [Vec (vector c)]) <$> List.concat (List.map patterns children).
Proof.
  induction 1 as [|t children Ht _ IH]; [done|]. simpl.
  intros [Hg Hgs]%andb_prop.
  destruct (Ht Hg) as [-> ->]. destruct (IH Hgs) as [-> ->].
  by rewrite !fmap_app.
Qed.

Lemma grammatical_agents t :
  grammatical t = true →
  agent_nodes t = (λ c, [Pattern c]) <$> patterns t ∧
  agent_nodes (described t) = (λ c, [Vec (vector c)]) <$> patterns t.
Proof.
  induction t as [data children IH| | | |] using node_rect'; try done.
  intros Hg. simpl in Hg. apply andb_prop in Hg as [Hgs Hshape].
  destruct (grammatical_children children IH Hgs) as [Hbefore Hafter].
  simpl agent_nodes at 1. simpl patterns. cbn [vectorized].
  destruct (decide (data = "agent")) as [->|Hagent].
  - destruct children as [|[| |c| |] [|]]; try done.
  - rewrite app_nil_r. simpl.
    destruct (decide (data = "rate_agent")) as [->|Hrate].
    + destruct children as [|opening [|inner [|closing [|]]]]; try done.
      apply andb_prop in Hshape as [Hopening Hclosing].
      destruct opening; try done. destruct closing; try done.
      simpl in *. rewrite !app_nil_r in *. done.
    + destruct (decide (data = "param")) as [->|Hparam].
      * destruct children as [|name rest]; [done|].
        destruct (tokens_hold_no_agent (name :: rest) Hshape) as (Hnone & Hnone' & Hsame).
        rewrite Hnone', Hnone. split; [done|].
        rewrite Hsame.
        destruct (Dict.get (node_str name) definitions); simpl; [done|].
        simpl in Hnone'. by rewrite Hnone'.
      * split; [done|]. simpl. by rewrite decide_False.
Qed.

(** C9. On an expression as the parser builds it, [vectorize] returns, for
    the agents in the order the transformer reaches them, the vector of each
    pattern over the ordering, and stores the expression in which every
    agent holds the vector of its own pattern; every agent node of the
    rewritten expression holds one of these vectors and nothing else.  In
    an expression of the rate grammar the agent nodes are kept one by one:
    the agent node that held a pattern holds the vector of that pattern,
    and no agent node is lost or added.  Each vector is as long as the
    ordering and its coordinate [i] is 1 when the pattern is compatible
    with species [i] and 0 otherwise, so a pattern compatible with no
    species gives the all-zero vector. *)
Theorem vectorize_compatibility_vectors data children :
  parsed (Tree data children) = true →
  ∃ expression',
    vectorize compatible ordering definitions (Tree data children)
    = (Ok (vector <$> patterns (Tree data children)), expression') ∧
    expression' = vectorized compatible ordering definitions (Tree data children) ∧
    Forall (λ held, ∃ c, c ∈ patterns (Tree data children) ∧ held = [Vec (vector c)])
      (agent_nodes expression') ∧
    (grammatical (Tree data children) = true →
     agent_nodes (Tree data children)
     = (λ c, [Pattern c]) <$> patterns (Tree data children) ∧
     agent_nodes expression'
     = (λ c, [Vec (vector c)]) <$> patterns (Tree data children)) ∧
    ∀ c,
      State_len (vector c) = length ordering ∧
      is_inf (vector c) = false ∧
      (∀ i species, ordering !! i = Some species →
         (sequence (vector c) !! i = Some 1 ↔ compatible c species = true) ∧
         (sequence (vector c) !! i = Some 0 ↔ compatible c species = false)) ∧
      ((∀ species, species ∈ ordering → compatible c species = false) →
       sequence (vector c) = replicate (length ordering) 0).
Proof.
  intros Hparsed.
  destruct (transform_tree_parsed (Tree data children) [] Hparsed)
    as (t' & Hrun & Hagents & _).
  pose proof (transform_tree_described (Tree data children) Hparsed []) as Hdescribed.
  rewrite Hrun in Hdescribed. injection Hdescribed as ->.
  exists (described (Tree data children)).
  unfold vectorize, transform. rewrite Hrun. split_and!.
  - done.
  - done.
  - exact Hagents.
  - apply grammatical_agents.
  - apply compatibility_bits.
Qed.

End RateFacts.

Section RateExamples.
Import Rate Examples.

Lemma vectorize_compatibility_vectors_witness :
  parsed product_expression = true ∧
  grammatical product_expression = true ∧
  patterns product_expression = ["K"; "B"]%string ∧
  vectorize (Str_object := node_repr) starts_with species3 [] product_expression
  = (Ok [mkState [1; 1; 0] false; mkState [0; 0; 1] false], product_vectorised) ∧
  agent_nodes product_expression = [[Pattern "K"%string]; [Pattern "B"%string]] ∧
  agent_nodes product_vectorised
  = [[Vec (mkState [1; 1; 0] false)]; [Vec (mkState [0; 0; 1] false)]].
Proof.
  destruct (vectorize_compatibility_vectors starts_with (Str_object := node_repr)
              species3 [] "rate" product_children eq_refl)
    as (e & He & Hdescribed & _ & Hkept & _).
  destruct (Hkept eq_refl) as [Hbefore Hafter].
  split_and!; reflexivity.
Defined.

End RateExamples.

(** ** Equality up to the order of the species *)
Section Isomorphism.
Context {Complex : Type} `{EqDecision Complex} {P : Type} `{Number P}.
Context {Hash_Edge : Hash (Edge P)}.
Implicit Types (ts self other : TransitionSystem Complex P).
Implicit Types (o : list Complex) (pi inv : list nat) (s : State).

Lemma permutation_bounds pi n : pi ≡ₚ seq 0 n → Forall (λ j, (j < n)%nat) pi.
Proof.
  intros Hpi. apply Forall_forall. intros j Hj.
  rewrite Hpi in Hj. apply elem_of_seq in Hj. lia.
Qed.

Lemma permute_list_Forall2 {A : Type} pi (l : list A) :
  Forall (λ j, (j < length l)%nat) pi →
  Forall2 (λ j x, l !! j = Some x) pi (permute_list pi l).
Proof.
  intros Hpi. apply omap_Forall2.
  eapply Forall_impl; [exact Hpi|]. intros j. apply lookup_lt_is_Some.
Qed.

Lemma permute_list_elem pi o x :
  pi ≡ₚ seq 0 (length o) → x ∈ o ↔ x ∈ permute_list pi o.
Proof.
  intros Hpi. unfold permute_list. rewrite list_elem_of_omap. split.
  - intros Hx. apply list_elem_of_lookup in Hx as [i Hi].
    exists i. split; [|done]. rewrite Hpi. apply elem_of_seq.
    apply lookup_lt_Some in Hi. lia.
  - intros (j & _ & Hj). apply list_elem_of_lookup. eauto.
Qed.

(** [create_indices] finds the inverse of the permutation. *)
Lemma create_indices_inverse pi o :
  NoDup o → pi ≡ₚ seq 0 (length o) →
  ∃ inv, create_indices o (permute_list pi o) = (true, Some inv) ∧
         length inv = length o ∧
         ∀ i j, inv !! i = Some j → pi !! j = Some i.
Proof.
  intros Ho Hpi. unfold create_indices.
  assert (Heq : set_eqb o (permute_list pi o) = true)
    by (apply set_eqb_true; intros x; by apply permute_list_elem).
  rewrite Heq. eexists. split; [reflexivity|].
  pose proof (permute_list_Forall2 pi o (permutation_bounds _ _ Hpi)) as Hperm.
  assert (Hinv : Forall2 (λ x j, first_index x (permute_list pi o) = Some j) o
                   (omap (λ x, first_index x (permute_list pi o)) o)).
  { apply omap_Forall2. apply Forall_forall. intros x Hx.
    unfold first_index. apply fmap_is_Some.
    apply (list_find_elem_of _ _ x); [|done]. by apply permute_list_elem. }
  split; [symmetry; by eapply Forall2_length|].
  intros i j Hij.
  destruct (Forall2_lookup_r _ _ _ _ _ Hinv Hij) as (x & Hx & Hfirst).
  unfold first_index in Hfirst.
  destruct (list_find _ _) as [[j' y]|] eqn:Hfind; [|done].
  injection Hfirst as ->. apply list_find_Some in Hfind as (Hy & <- & _).
  destruct (Forall2_lookup_r _ _ _ _ _ Hperm Hy) as (k & Hk & Hok).
  by rewrite (NoDup_lookup o i k x).
Qed.

Lemma reorder_inverse pi inv s :
  (∀ i j, inv !! i = Some j → pi !! j = Some i) →
  length inv = State_len s →
  reorder inv (reorder pi s) = s.
Proof.
  intros Hinv Hlen. destruct s as [sq flag]. unfold reorder, State_len in *.
  simpl in *. f_equal. apply list_eq. intros i.
  rewrite list_lookup_fmap.
  destruct (inv !! i) as [j|] eqn:Hi; simpl.
  - rewrite nth_lookup, list_lookup_fmap, (Hinv _ _ Hi). simpl.
    rewrite nth_lookup. apply lookup_lt_Some in Hi. rewrite Hlen in Hi.
    apply lookup_lt_is_Some in Hi as [v ->]. done.
  - apply lookup_ge_None in Hi. symmetry. apply lookup_ge_None. lia.
Qed.

(** The dictionary comprehension of [__eq__] gives back the encoding of
    the system that was permuted. *)
Lemma re_encoding_inverse pi inv (d : list (State * Z)) :
  (∀ i j, inv !! i = Some j → pi !! j = Some i) →
  NoDup (Dict.keys d) →
  Forall (λ s, length inv = State_len s) (Dict.keys d) →
  Dict.of_items
    ((λ kv, (reorder inv kv.1, kv.2)) <$> ((λ kv, (reorder pi kv.1, kv.2)) <$> d))
  = d.
Proof.
  intros Hinv Hnd Hlen.
  assert (Hid : (λ kv : State * Z, (reorder inv kv.1, kv.2))
                  <$> ((λ kv : State * Z, (reorder pi kv.1, kv.2)) <$> d) = d).
  { unfold Dict.keys in Hlen. clear Hnd.
    induction d as [|[s c] d IH]; [done|].
    rewrite fmap_cons in Hlen. apply Forall_cons in Hlen as [Hs Hlen].
    rewrite !fmap_cons. cbn [fst snd] in *.
    rewrite reorder_inverse by done. f_equal. by apply IH. }
  rewrite Hid. by apply of_items_NoDup.
Qed.

Lemma Edge_recode_same (d : list (State * Z)) (e : Edge P) :
  NoDup (Dict.keys d) →
  (∃ a b, source e = VCode a ∧ target e = VCode b ∧
          a ∈ Dict.values d ∧ b ∈ Dict.values d) →
  Edge_recode (Dict.of_items ((λ kv, (kv.2, kv.1)) <$> d)) d e = Ok e.
Proof.
  intros Hnd (a & b & Ha & Hb & Hina & Hinb).
  assert (Hback : ∀ c, c ∈ Dict.values d →
            ∃ s, Dict.get c (Dict.of_items ((λ kv : State * Z, (kv.2, kv.1)) <$> d)) = Some s
                 ∧ Dict.get s d = Some c).
  { intros c Hc.
    destruct (get_fold_set_is_Some ((λ kv : State * Z, (kv.2, kv.1)) <$> d) [] c)
      as [s Hs].
    { left. unfold Dict.keys. by rewrite <- list_fmap_compose. }
    exists s. split; [exact Hs|].
    apply get_fold_set_Some in Hs as [Hin|?]; [|done].
    apply list_elem_of_fmap in Hin as ([s' c'] & [= -> ->] & Hin).
    by apply elem_get. }
  destruct (Hback a Hina) as (sa & Hsa & Hca).
  destruct (Hback b Hinb) as (sb & Hsb & Hcb).
  unfold Edge_recode. rewrite Ha, Hb. simpl. rewrite Hsa, Hsb, Hca, Hcb.
  destruct e. simpl in *. by subst.
Qed.

(** The comparison, once the orderings are a permutation of each other:
    only the hashes of the edges are left to compare. *)
Lemma eq_run self other pi :
  NoDup (ordering other) →
  pi ≡ₚ seq 0 (length (ordering other)) →
  ordering self = permute_list pi (ordering other) →
  states_encoding self = (λ kv, (reorder pi kv.1, kv.2)) <$> states_encoding other →
  NoDup (Dict.keys (states_encoding other)) →
  Forall (λ s, State_len s = length (ordering other)) (Dict.keys (states_encoding other)) →
  Forall (λ e, ∃ a b, source e = VCode a ∧ target e = VCode b ∧
                      a ∈ Dict.values (states_encoding other) ∧
                      b ∈ Dict.values (states_encoding other)) (edges self) →
  TransitionSystem_eq self other
  = Ok (set_eqb (hash <$> remove_dups (edges self)) (hash <$> edges other)).
Proof.
  intros Ho Hpi Hord Henc Hnd Hlen Hedges. unfold TransitionSystem_eq.
  rewrite Hord.
  destruct (create_indices_inverse pi (ordering other) Ho Hpi)
    as (inv & -> & Hinvlen & Hinv).
  rewrite Henc, (re_encoding_inverse pi inv); [|done|done|].
  2: { eapply Forall_impl; [exact Hlen|]. intros s Hs. simpl in *. lia. }
  unfold recode, create_decoding. simpl.
  rewrite traverse_id; [done|].
  eapply Forall_impl; [exact Hedges|]. intros e He. by apply Edge_recode_same.
Qed.

Lemma permute_list_id {A : Type} (l : list A) :
  permute_list (seq 0 (length l)) l = l.
Proof.
  apply list_eq. intros i.
  pose proof (permute_list_Forall2 (seq 0 (length l)) l) as Hperm.
  assert (Hb : Forall (λ j, (j < length l)%nat) (seq 0 (length l))).
  { apply Forall_forall. intros j Hj. apply elem_of_seq in Hj. lia. }
  specialize (Hperm Hb).
  destruct (decide (i < length l)%nat) as [Hi|Hi].
  - destruct (Forall2_lookup_l _ _ _ i i Hperm) as (x & Hx & Hlx);
      [by apply lookup_seq_lt|]. by rewrite Hx, Hlx.
  - rewrite (proj2 (lookup_ge_None l i)) by lia.
    apply lookup_ge_None. apply Forall2_length in Hperm.
    rewrite length_seq in Hperm. lia.
Qed.

Lemma reorder_id s : reorder (seq 0 (State_len s)) s = s.
Proof.
  destruct s as [sq flag]. unfold reorder, State_len. simpl. f_equal.
  apply list_eq. intros i. rewrite list_lookup_fmap.
  destruct (decide (i < length sq)%nat) as [Hi|Hi].
  - rewrite lookup_seq_lt by done. simpl. rewrite nth_lookup.
    apply lookup_lt_is_Some in Hi as [v ->]. done.
  - rewrite lookup_seq_ge by lia. symmetry. apply lookup_ge_None. lia.
Qed.






End Isomorphism.

Section IsomorphismExamples.
Import Examples.

Lemma encoded_is_encoded_system : encoded_system encoded.
Proof.
  unfold encoded_system. split_and!.
  - apply (bool_decide_unpack _). vm_compute. exact I.
  - apply (bool_decide_unpack _). vm_compute. exact I.
  - apply (bool_decide_unpack _). vm_compute. exact I.
  - apply (bool_decide_unpack _). vm_compute. exact I.
  - constructor; [|constructor]. exists 1, 2. simpl.
    split_and!; [done | done | left | right; left].
Defined.



End IsomorphismExamples.

(** * Further properties of the transition system *)

Section ListsMore.
Context {A : Type} `{EqDecision A}.

Lemma remove_dups_length (l : list A) : (length (remove_dups l) ≤ length l)%nat.
Proof.
  induction l as [|x l IH]; simpl; [done|].
  destruct (decide_rel elem_of x l); simpl; lia.
Qed.

Lemma remove_dups_NoDup (l : list A) : NoDup l → remove_dups l = l.
Proof.
  induction 1 as [|x l Hx _ IH]; simpl; [done|].
  destruct (decide_rel elem_of x l); [done|]. by rewrite IH.
Qed.

End ListsMore.

Section DictMore.
Context {K V : Type} `{EqDecision K}.
Implicit Types (d l : list (K * V)) (k : K) (v : V).

Lemma get_fold_set_other l d k :
  k ∉ Dict.keys l →
  Dict.get k (fold_left (λ d kv, Dict.set kv.1 kv.2 d) l d) = Dict.get k d.
Proof.
  unfold Dict.keys. revert d. induction l as [|[k' v'] l IH]; intros d Hk; [done|].
  rewrite fmap_cons in Hk. apply not_elem_of_cons in Hk as [Hne Hk]. simpl.
  rewrite IH by done. apply get_set_ne. by intros ->.
Qed.

Lemma keys_set_in k v d :
  k ∈ Dict.keys d → Dict.keys (Dict.set k v d) = Dict.keys d.
Proof.
  unfold Dict.keys. induction d as [|[k' v'] d IH]; intros Hin.
  - by apply elem_of_nil in Hin.
  - rewrite fmap_cons in Hin. cbn [Dict.set].
    destruct (decide (k' = k)) as [->|Hne]; [done|].
    apply elem_of_cons in Hin as [Heq|Hin]; [simpl in Heq; congruence|].
    rewrite !fmap_cons. f_equal. by apply IH.
Qed.

Lemma keys_set_notin k v d :
  k ∉ Dict.keys d → Dict.keys (Dict.set k v d) = Dict.keys d ++ [k].
Proof.
  intros Hk. rewrite set_fresh by by apply get_None.
  unfold Dict.keys. by rewrite fmap_app.
Qed.

Lemma keys_set_NoDup k v d : NoDup (Dict.keys d) → NoDup (Dict.keys (Dict.set k v d)).
Proof.
  intros Hnd. destruct (decide (k ∈ Dict.keys d)) as [Hin|Hin].
  - by rewrite keys_set_in.
  - rewrite keys_set_notin by done.
    apply NoDup_app. split_and!; [done | | apply NoDup_singleton].
    intros x Hx. rewrite list_elem_of_singleton. by intros ->.
Qed.

Lemma get_Some_values k v d : Dict.get k d = Some v → v ∈ Dict.values d.
Proof.
  intros Hget. apply get_Some_elem in Hget.
  by apply (list_elem_of_fmap_2 snd) in Hget.
Qed.

End DictMore.

Section TraverseFacts.
Context {A B : Type}.

Lemma traverse_Ok (f : A → result B) (l : list A) (l' : list B) :
  traverse f l = Ok l' → Forall2 (λ x y, f x = Ok y) l l'.
Proof.
  revert l'. induction l as [|x l IH]; intros l'; simpl.
  - intros [= <-]. constructor.
  - destruct (f x) as [y|e] eqn:Hx; [|done].
    destruct (traverse f l) as [ys|e]; [|done].
    intros [= <-]. constructor; auto.
Qed.

Lemma traverse_Raise (f : A → result B) (l : list A) (e : exn) :
  traverse f l = Raise e → ∃ x, x ∈ l ∧ f x = Raise e.
Proof.
  induction l as [|x l IH]; simpl; [done|].
  destruct (f x) as [y|e'] eqn:Hx.
  - destruct (traverse f l) as [ys|e']; [done|].
    intros [= ->]. destruct IH as (x' & ? & ?); [done|].
    exists x'. split; [by right | done].
  - intros [= ->]. exists x. split; [left | done].
Qed.

Lemma traverse_fails (f : A → result B) (l : list A) (x : A) (e : exn) :
  x ∈ l → f x = Raise e → ∃ e', traverse f l = Raise e'.
Proof.
  intros Hin Hx. destruct (traverse f l) as [l'|e'] eqn:Hl; [|by eexists].
  apply traverse_Ok in Hl. apply list_elem_of_lookup in Hin as [i Hi].
  destruct (Forall2_lookup_l _ _ _ _ _ Hl Hi) as (y & _ & Hy). congruence.
Qed.

End TraverseFacts.

Section EncodeMore.
Context {Complex : Type} {P : Type} `{Number P}.
Implicit Types (ts : TransitionSystem Complex P) (d : list (State * Z)).
Implicit Types (it : list State) (s : State).

Lemma encode_states_keeps it d s c :
  Dict.get s d = Some c → Dict.get s (encode_states it d) = Some c.
Proof.
  unfold encode_states. revert d.
  induction it as [|x it IH]; intros d Hs; simpl; [done|].
  apply IH. unfold Dict.mem. destruct (Dict.get x d) eqn:Hx; [done|].
  rewrite get_set_ne; [done|]. intros ->. congruence.
Qed.

Lemma encode_states_codes it d s :
  s ∈ it → is_Some (Dict.get s (encode_states it d)).
Proof.
  unfold encode_states. revert d.
  induction it as [|x it IH]; intros d Hs; [by apply elem_of_nil in Hs|].
  apply elem_of_cons in Hs as [->|Hs]; simpl; [|by apply IH].
  unfold Dict.mem. destruct (Dict.get x d) as [c|] eqn:Hx.
  - exists c. by apply encode_states_keeps.
  - eexists. apply encode_states_keeps, get_set_eq.
Qed.

Lemma encode_states_of_run it init_state ts :
  states_encoding (encode it init_state ts).2
  = encode_states it (states_encoding ts).
Proof.
  rewrite encode_run. simpl.
  destruct (Dict.get init_state _); [|done].
  by destruct (encode_each _ _).
Qed.

(** X1. Whether [encode] returns or raises, a state that had a code keeps
    it, every staged state has a code afterwards, and the ordering and
    [unprocessed] are what they were. *)
Theorem encode_keeps_codes it init_state ts :
  let ts' := (encode it init_state ts).2 in
  (∀ s c, Dict.get s (states_encoding ts) = Some c →
          Dict.get s (states_encoding ts') = Some c) ∧
  (∀ s, s ∈ it → is_Some (Dict.get s (states_encoding ts'))) ∧
  ordering ts' = ordering ts ∧
  unprocessed ts' = unprocessed ts.
Proof.
  intros ts'. subst ts'. rewrite encode_states_of_run. split_and!.
  - intros s c. apply encode_states_keeps.
  - intros s. apply encode_states_codes.
  - rewrite encode_run. simpl. destruct (Dict.get init_state _); [|done].
    by destruct (encode_each _ _).
  - rewrite encode_run. simpl. destruct (Dict.get init_state _); [|done].
    by destruct (encode_each _ _).
Qed.

(** X2. The decoding built from an encoding without repeated keys has
    exactly the codes in use as keys, and the state it gives for a code is a
    state with that code: [encoding[decoding[c]] == c], whether or not the
    codes are shared. *)
Theorem create_decoding_right_inverse ts :
  NoDup (Dict.keys (states_encoding ts)) →
  (∀ c, c ∈ Dict.values (states_encoding ts)
        ↔ is_Some (Dict.get c (create_decoding ts))) ∧
  (∀ c s, Dict.get c (create_decoding ts) = Some s →
          Dict.get s (states_encoding ts) = Some c).
Proof.
  intros Hnd. unfold create_decoding, Dict.of_items.
  assert (Hsound : ∀ (c : Z) (s : State),
    Dict.get c (fold_left (λ (d : list (Z * State)) kv, Dict.set kv.1 kv.2 d)
                  ((λ kv : State * Z, (kv.2, kv.1)) <$> states_encoding ts) [])
    = Some s → (s, c) ∈ states_encoding ts).
  { intros c s Hget. apply get_fold_set_Some in Hget as [Hin|?]; [|done].
    by apply list_elem_of_fmap in Hin as ([s' c'] & [= -> ->] & Hin). }
  split.
  - intros c. split.
    + intros Hc. apply get_fold_set_is_Some. left.
      unfold Dict.keys. by rewrite <- list_fmap_compose.
    + intros [s Hs]. apply Hsound in Hs.
      by apply (list_elem_of_fmap_2 snd) in Hs.
  - intros c s Hget. apply elem_get; [done|]. by apply Hsound.
Qed.

(** X3. When several states share a code, the decoding maps the code to the
    state inserted last. *)
Theorem create_decoding_last_wins ts before after s c :
  states_encoding ts = before ++ (s, c) :: after →
  c ∉ Dict.values after →
  Dict.get c (create_decoding ts) = Some s.
Proof.
  intros Henc Hlast. unfold create_decoding, Dict.of_items.
  rewrite Henc, fmap_app, fmap_cons, fold_left_app. simpl.
  rewrite get_fold_set_other; [apply get_set_eq|].
  unfold Dict.keys. by rewrite <- list_fmap_compose.
Qed.

Lemma Edge_recode_outcome (old : list (Z * State)) (new : list (State * Z))
    (e : Edge P) :
  Edge_recode old new e = Raise KeyError ∨
  ∃ a b, Edge_recode old new e = Ok (mkEdge (VCode a) (VCode b) (probability e)) ∧
         a ∈ Dict.values new ∧ b ∈ Dict.values new.
Proof.
  unfold Edge_recode.
  destruct (code_item old (source e)) as [s|]; [|by left].
  destruct (code_item old (target e)) as [t|]; [|by left].
  destruct (Dict.get s new) as [a|] eqn:Ha; [|by left].
  destruct (Dict.get t new) as [b|] eqn:Hb; [|by left].
  right. exists a, b. split_and!; [done | by eapply get_Some_values..].
Qed.

(** X4. [recode] either raises [KeyError] and leaves the system as it was,
    or returns having replaced the edges alone: the new edges are distinct,
    as many as before at most, and their endpoints are codes of the new
    encoding.  The encoding of the system itself is never updated. *)
Theorem recode_outcome (new_encoding : list (State * Z)) ts :
  recode new_encoding ts = (Raise KeyError, ts) ∨
  ∃ es, recode new_encoding ts = (Ok tt, set_edges es ts) ∧
        NoDup es ∧ (length es ≤ length (edges ts))%nat ∧
        Forall (λ e, ∃ a b, source e = VCode a ∧ target e = VCode b ∧
                            a ∈ Dict.values new_encoding ∧
                            b ∈ Dict.values new_encoding) es.
Proof.
  unfold recode.
  destruct (traverse _ (edges ts)) as [es|e] eqn:Hes.
  - right. exists (remove_dups es). split_and!.
    + done.
    + apply NoDup_remove_dups.
    + apply traverse_Ok, Forall2_length in Hes. rewrite Hes.
      apply remove_dups_length.
    + apply Forall_forall. intros e' He'. rewrite elem_of_remove_dups in He'.
      apply traverse_Ok in Hes. apply list_elem_of_lookup in He' as [i Hi].
      destruct (Forall2_lookup_r _ _ _ _ _ Hes Hi) as (e & _ & He).
      destruct (Edge_recode_outcome (create_decoding ts) new_encoding e)
        as [Hr|(a & b & Hr & Ha & Hb)]; [congruence|].
      rewrite Hr in He. injection He as <-. by exists a, b.
  - left. apply traverse_Raise in Hes as (e' & _ & He').
    destruct (Edge_recode_outcome (create_decoding ts) new_encoding e')
      as [Hr|(a & b & Hr & _)]; congruence.
Qed.

(** X5. Recoding a system onto its own encoding gives back its edges: when
    the keys of the encoding and the edges are distinct and the endpoints of
    the edges are codes in use, [recode(self.states_encoding)] returns and
    leaves the system as it was. *)
Theorem recode_own_encoding ts :
  NoDup (Dict.keys (states_encoding ts)) →
  NoDup (edges ts) →
  Forall (λ e, ∃ a b, source e = VCode a ∧ target e = VCode b ∧
                      a ∈ Dict.values (states_encoding ts) ∧
                      b ∈ Dict.values (states_encoding ts)) (edges ts) →
  recode (states_encoding ts) ts = (Ok tt, ts).
Proof.
  intros Hnd Hedges Hvalid. unfold recode, create_decoding.
  rewrite traverse_id.
  - rewrite remove_dups_NoDup by done. by destruct ts.
  - eapply Forall_impl; [exact Hvalid|]. intros e He. by apply Edge_recode_same.
Qed.

End EncodeMore.

Section ChangeHellMore.
Context {Complex : Type} {P : Type} `{Number P}.
Implicit Types (ts : TransitionSystem Complex P) (d : list (State * Z)).

Lemma del_set_fresh (k : State) (v : Z) d :
  Dict.get k d = None → Dict.del k (Dict.set k v d) = d.
Proof.
  induction d as [|[k' v'] d IH]; simpl.
  - by rewrite decide_True.
  - destruct (decide (k' = k)) as [->|Hne]; [done|].
    intros Hget. simpl. rewrite decide_False by done. by rewrite IH.
Qed.

Lemma keys_del_NoDup (k : State) d :
  NoDup (Dict.keys d) → NoDup (Dict.keys (Dict.del k d)).
Proof. intros Hnd. rewrite keys_del by done. by apply NoDup_filter. Qed.

(** X6. [change_hell] always returns; it leaves the code of every state
    that is not flagged infinite, the edges, the ordering and [init] as they
    were, keeps the keys of the encoding distinct, and changes nothing at
    all when no state is flagged. *)
Theorem change_hell_spares_unflagged bound ts :
  ∃ ts', change_hell bound ts = (Ok tt, ts') ∧
    (∀ s, is_inf s = false →
       Dict.get s (states_encoding ts') = Dict.get s (states_encoding ts)) ∧
    edges ts' = edges ts ∧ ordering ts' = ordering ts ∧ init ts' = init ts ∧
    (NoDup (Dict.keys (states_encoding ts)) →
     NoDup (Dict.keys (states_encoding ts'))) ∧
    ((∀ s, s ∈ Dict.keys (states_encoding ts) → is_inf s = false) → ts' = ts).
Proof.
  unfold change_hell.
  destruct (List.find _ (states_encoding ts)) as [[key value]|] eqn:Hfind.
  - apply find_some in Hfind as [Hin Hflag]. simpl in Hflag.
    apply list_elem_of_In in Hin.
    eexists. split; [reflexivity|]. simpl. split_and!; try done.
    + intros s Hs. rewrite get_set_ne, get_del_ne; [done | |];
        intros <-; simpl in *; congruence.
    + intros Hnd. by apply keys_set_NoDup, keys_del_NoDup.
    + intros Hnone. apply (list_elem_of_fmap_2 fst) in Hin. simpl in Hin.
      apply Hnone in Hin. congruence.
  - eexists. split; [reflexivity|]. by split_and!.
Qed.

(** X7. On an encoding with exactly one state flagged infinite, calling
    [change_hell] again with another bound gives the system that the second
    bound alone gives: the overflow state follows the last bound and keeps
    its code. *)
Theorem change_hell_last_bound_wins bound bound' ts key code :
  NoDup (Dict.keys (states_encoding ts)) →
  Dict.get key (states_encoding ts) = Some code →
  is_inf key = true →
  (∀ s, s ∈ Dict.keys (states_encoding ts) → is_inf s = true → s = key) →
  (change_hell bound' (change_hell bound ts).2).2 = (change_hell bound' ts).2.
Proof.
  intros Hnd Hget Hinf Huniq. unfold change_hell at 2 3.
  rewrite (find_flagged _ key code) by done. simpl.
  set (hell := mkState (replicate (State_len key) (bound + 1)) true).
  set (rest := Dict.del key (states_encoding ts)).
  assert (Hfresh : Dict.get hell rest = None).
  { subst rest. destruct (decide (key = hell)) as [Heq|Hne];
      [rewrite <- Heq; by apply get_del_eq|].
    rewrite get_del_ne by done. apply get_None. intros Hin.
    apply Hne. symmetry. by apply Huniq. }
  unfold change_hell. simpl.
  rewrite (find_flagged _ hell code).
  - simpl. rewrite del_set_fresh by done.
    replace (State_len hell) with (State_len key)
      by (unfold State_len, hell; simpl; by rewrite length_replicate).
    done.
  - by apply keys_set_NoDup, keys_del_NoDup.
  - apply get_set_eq.
  - done.
  - intros s Hs Hflag. destruct (decide (s = hell)) as [|Hne]; [done|].
    exfalso. apply get_None in Hs; [done|].
    rewrite get_set_ne by done. subst rest.
    destruct (decide (s = key)) as [->|Hkey]; [by apply get_del_eq|].
    rewrite get_del_ne by done. apply get_None. intros Hin.
    apply Hkey. by apply Huniq.
Qed.

End ChangeHellMore.

Section IsomorphismMore.
Context {Complex : Type} `{EqDecision Complex} {P : Type} `{Number P}.
Context {Hash_Edge : Hash (Edge P)}.
Implicit Types (ts self other : TransitionSystem Complex P).
Implicit Types (o : list Complex) (s : State).

(** X8. [create_indices] fails exactly when the two orderings do not hold
    the same species; otherwise it gives one index for every position of the
    first ordering, the first position of the second ordering that holds the
    same species. *)
Theorem create_indices_sound (o1 o2 : list Complex) :
  (create_indices o1 o2 = (false, None) ∧ ¬ (∀ x, x ∈ o1 ↔ x ∈ o2)) ∨
  (∃ indices,
     create_indices o1 o2 = (true, Some indices) ∧
     (∀ x, x ∈ o1 ↔ x ∈ o2) ∧
     length indices = length o1 ∧
     ∀ i x, o1 !! i = Some x →
       ∃ j, indices !! i = Some j ∧ o2 !! j = Some x ∧
            ∀ j' y, o2 !! j' = Some y → (j' < j)%nat → y ≠ x).
Proof.
  unfold create_indices. destruct (set_eqb o1 o2) eqn:Heq.
  - right. pose proof (proj1 (set_eqb_true _ _) Heq) as Hsame. clear Heq.
    rename Hsame into Heq. eexists. split; [reflexivity|].
    assert (Hall : Forall2 (λ x j, first_index x o2 = Some j) o1
                     (omap (λ x, first_index x o2) o1)).
    { apply omap_Forall2. apply Forall_forall. intros x Hx.
      unfold first_index. apply fmap_is_Some.
      apply (list_find_elem_of _ _ x); [by apply Heq | done]. }
    split_and!; [done | symmetry; by eapply Forall2_length |].
    intros i x Hi.
    destruct (Forall2_lookup_l _ _ _ _ _ Hall Hi) as (j & Hj & Hfirst).
    exists j. split; [done|]. unfold first_index in Hfirst.
    destruct (list_find _ o2) as [[j' y]|] eqn:Hfind; [|done].
    injection Hfirst as ->. apply list_find_Some in Hfind as (Hy & <- & Hmin).
    split; [done|]. intros j' y Hy' Hlt ->. by eapply Hmin.
  - left. split; [done|]. intros Hsame.
    pose proof (proj2 (set_eqb_true o1 o2) Hsame). congruence.
Qed.

Lemma reorder_id_encoding n (d : list (State * Z)) :
  Forall (λ s, State_len s = n) (Dict.keys d) →
  (λ kv : State * Z, (reorder (seq 0 n) kv.1, kv.2)) <$> d = d.
Proof.
  unfold Dict.keys. induction d as [|[s c] d IH]; intros Hlen; [done|].
  rewrite fmap_cons in Hlen. apply Forall_cons in Hlen as [Hs Hlen].
  rewrite fmap_cons. cbn [fst snd] in *.
  replace (reorder (seq 0 n) s) with s
    by (rewrite <- Hs; symmetry; apply reorder_id).
  f_equal. by apply IH.
Qed.

(** X9. Equality looks at the ordering, the encoding and the edges only: a
    system with the ordering, the encoding and the edges of an encoded
    system compares equal to it, whatever its initial state and its staging
    sets are; in particular an encoded system equals itself. *)
Theorem eq_ignores_init_and_staging self other :
  encoded_system other →
  ordering self = ordering other →
  states_encoding self = states_encoding other →
  edges self = edges other →
  TransitionSystem_eq self other = Ok true.
Proof.
  intros (Ho & Hnd & Hlen & _ & Hedges) Hord Henc Hes.
  rewrite (eq_run self other (seq 0 (length (ordering other)))).
  - f_equal. apply set_eqb_true. intros h. rewrite Hes.
    rewrite !list_elem_of_fmap. by setoid_rewrite elem_of_remove_dups.
  - done.
  - done.
  - by rewrite permute_list_id.
  - by rewrite reorder_id_encoding.
  - done.
  - done.
  - by rewrite Hes.
Qed.

(** X10. Over the same ordering, a system is not equal to another one as
    soon as one of its edges starts or ends at a state that the other
    system has no code for: the [KeyError] of [recode] is turned into
    [False]. *)
Theorem eq_false_on_missing_state self other e a s :
  NoDup (ordering other) →
  ordering self = ordering other →
  NoDup (Dict.keys (states_encoding self)) →
  Forall (λ s, State_len s = length (ordering other))
    (Dict.keys (states_encoding self)) →
  e ∈ edges self →
  source e = VCode a ∨ target e = VCode a →
  Dict.get a (create_decoding self) = Some s →
  s ∉ Dict.keys (states_encoding other) →
  TransitionSystem_eq self other = Ok false.
Proof.
  intros Ho Hord Hnd Hlen He Hend Hdec Hmiss.
  unfold TransitionSystem_eq. rewrite Hord.
  destruct (create_indices_inverse (seq 0 (length (ordering other)))
              (ordering other) Ho) as (inv & Hci & Hinvlen & Hinv); [done|].
  rewrite permute_list_id in Hci. rewrite Hci.
  replace (states_encoding self) with
    ((λ kv : State * Z, (reorder (seq 0 (length (ordering other))) kv.1, kv.2))
       <$> states_encoding self) at 1 by by apply reorder_id_encoding.
  rewrite (re_encoding_inverse (seq 0 (length (ordering other))) inv);
    [|done|done|].
  2: { eapply Forall_impl; [exact Hlen|]. intros s' Hs'. simpl in *. lia. }
  unfold recode. simpl.
  assert (Hraise : Edge_recode
            (create_decoding
               (set_edges (edges self)
                  (set_states_encoding (states_encoding self)
                     (TransitionSystem_init (ordering other)))))
            (states_encoding other) e = Raise KeyError).
  { assert (Hnone : Dict.get s (states_encoding other) = None)
      by by apply get_None.
    unfold Edge_recode, code_item.
    change (create_decoding _) with (create_decoding self).
    destruct Hend as [Ha|Ha]; rewrite Ha.
    - rewrite Hdec. destruct (target e) as [t|c]; [done|].
      destruct (Dict.get c (create_decoding self)); [|done]. by rewrite Hnone.
    - destruct (source e) as [t|c]; [done|].
      destruct (Dict.get c (create_decoding self)) as [s'|]; [|done].
      rewrite Hdec, Hnone. by destruct (Dict.get s' _). }
  destruct (traverse_fails _ _ _ _ He Hraise) as [e' He'].
  change (create_decoding _) with (create_decoding self) in *.
  rewrite He'. apply traverse_Raise in He' as (e'' & _ & He'').
  destruct (Edge_recode_outcome (create_decoding self) (states_encoding other) e'')
    as [Hr|(a' & b' & Hr & _)]; [|congruence].
  rewrite Hr in He''. by injection He'' as <-.
Qed.

End IsomorphismMore.

Section StormMore.
Context {Complex : Type} {P : Type} `{Number P} {Str_State : Str State}.
Implicit Types (ts : TransitionSystem Complex P) (w : World (Complex := Complex) (P := P)).
Implicit Types (d : list (State * Z)) (es : list (Edge P)).

Lemma with_self_loops_fixed d es :
  Forall (λ kv, existsb (λ edge, bool_decide (source edge = VCode kv.2)) es = true) d →
  with_self_loops d es = es.
Proof.
  induction 1 as [|kv d Hkv _ IH]; simpl; [done|]. by rewrite Hkv.
Qed.

Lemma system_after_export order_edges_source transitions labels w :
  system (save_to_STORM_explicit_body order_edges_source transitions labels w).2
  = if openable w transitions
    then set_edges (with_self_loops (states_encoding (system w)) (edges (system w)))
           (system w)
    else system w.
Proof.
  rewrite save_to_STORM_explicit_run.
  destruct (openable w transitions); [|done].
  destruct order_edges_source; [by destruct (openable w labels) | done].
Qed.

(** X11. After a call of the export whose transitions file could be
    opened, whatever its outcome, every state of the encoding has an
    outgoing edge in the system; a second call, with any paths, then leaves
    the system as the first one left it. *)
Theorem save_to_STORM_explicit_completes_once
    order_edges_source order_edges_source' transitions labels transitions' labels' w :
  openable w transitions = true →
  let w1 := (save_to_STORM_explicit_body order_edges_source transitions labels w).2 in
  let w2 := (save_to_STORM_explicit_body order_edges_source' transitions' labels' w1).2 in
  (∀ s c, (s, c) ∈ states_encoding (system w1) →
          has_outgoing_edges (system w1) c = true) ∧
  system w2 = system w1.
Proof.
  intros Hopen w1 w2.
  assert (Hcov : ∀ s c, (s, c) ∈ states_encoding (system w1) →
                        has_outgoing_edges (system w1) c = true).
  { intros s c. subst w1. rewrite system_after_export, Hopen. simpl.
    intros Hin. unfold has_outgoing_edges. simpl.
    by apply (with_self_loops_covers _ (edges (system w)) s c Hin). }
  split; [exact Hcov|]. subst w2. rewrite system_after_export.
  destruct (openable w1 transitions'); [|done].
  rewrite with_self_loops_fixed; [by destruct (system w1)|].
  apply Forall_forall. intros [s c] Hin. by apply (Hcov s c).
Qed.

(** X12. As the class stands, every call of [save_to_STORM_explicit]
    raises.  When the transitions file cannot be opened it raises
    [OSError] and nothing is changed; otherwise it raises [AttributeError]:
    the transitions file then holds the line [dtmc] alone, and no other
    file is created or changed. *)
Theorem save_to_STORM_explicit_always_raises transitions labels w :
  let r := save_to_STORM_explicit transitions labels w in
  if openable w transitions then
    r.1 = Raise AttributeError ∧
    Dict.get transitions (files r.2) = Some ("dtmc" +:+ newline) ∧
    ∀ path, path ≠ transitions → Dict.get path (files r.2) = Dict.get path (files w)
  else r = (Raise OSError, w).
Proof.
  intros r. subst r. unfold save_to_STORM_explicit.
  rewrite save_to_STORM_explicit_run.
  destruct (openable w transitions); [|done]. simpl.
  split_and!; [done | apply get_set_eq |].
  intros path Hne. by apply get_set_ne.
Qed.

End StormMore.

Section TransitionSystemMoreExamples.
Import Examples MoreExamples.

Lemma encoded_keys_NoDup : NoDup (Dict.keys (states_encoding encoded)).
Proof. apply (bool_decide_unpack _). vm_compute. exact I. Defined.

Lemma create_decoding_right_inverse_witness :
  NoDup (Dict.keys (states_encoding encoded)) ∧
  Dict.get 2 (create_decoding encoded) = Some s1 ∧
  Dict.get s1 (states_encoding encoded) = Some 2.
Proof.
  destruct (create_decoding_right_inverse encoded encoded_keys_NoDup)
    as [_ Hback].
  split_and!; [exact encoded_keys_NoDup | reflexivity |].
  exact (Hback 2 s1 eq_refl).
Defined.

Lemma create_decoding_last_wins_witness :
  states_encoding shared = [(s0, 1)] ++ (s1, 1) :: [] ∧
  (1 ∉ Dict.values ([] : list (State * Z))) ∧
  Dict.get 1 (create_decoding shared) = Some s1.
Proof.
  assert (Hlast : 1 ∉ Dict.values ([] : list (State * Z)))
    by apply not_elem_of_nil.
  split_and!; [reflexivity | exact Hlast |].
  exact (create_decoding_last_wins shared [(s0, 1)] [] s1 1 eq_refl Hlast).
Defined.

Lemma recode_own_encoding_witness :
  NoDup (edges encoded) ∧
  recode (states_encoding encoded) encoded = (Ok tt, encoded).
Proof.
  destruct encoded_is_encoded_system as (_ & Hnd & _ & Hes & Hvalid).
  split; [exact Hes|].
  exact (recode_own_encoding encoded Hnd Hes Hvalid).
Defined.

Lemma change_hell_last_bound_wins_witness :
  Dict.get overflow (states_encoding with_overflow) = Some 2 ∧
  (change_hell 7 (change_hell 4 with_overflow).2).2
  = (change_hell 7 with_overflow).2 ∧
  states_encoding (change_hell 7 with_overflow).2
  = [(s0, 1); (s1, 3); (mkState [8; 8] true, 2)].
Proof.
  assert (Hnd : NoDup (Dict.keys (states_encoding with_overflow)))
    by (apply (bool_decide_unpack _); vm_compute; exact I).
  assert (Huniq : ∀ s, s ∈ Dict.keys (states_encoding with_overflow) →
                       is_inf s = true → s = overflow).
  { intros s. simpl. rewrite !elem_of_cons, elem_of_nil.
    intros [->|[->|[->|[]]]]; done. }
  split_and!; [reflexivity | | reflexivity].
  exact (change_hell_last_bound_wins 4 7 with_overflow overflow 2
           Hnd eq_refl eq_refl Huniq).
Defined.

Lemma eq_ignores_init_and_staging_witness :
  init restaged ≠ init encoded ∧
  TransitionSystem_eq (Hash_Edge := edge_hash) restaged encoded = Ok true ∧
  TransitionSystem_eq (Hash_Edge := edge_hash) encoded encoded = Ok true.
Proof.
  split_and!.
  - discriminate.
  - exact (eq_ignores_init_and_staging (Hash_Edge := edge_hash) restaged encoded
             encoded_is_encoded_system eq_refl eq_refl eq_refl).
  - exact (eq_ignores_init_and_staging (Hash_Edge := edge_hash) encoded encoded
             encoded_is_encoded_system eq_refl eq_refl eq_refl).
Defined.

Lemma eq_false_on_missing_state_witness :
  (s1 ∉ Dict.keys (states_encoding smaller)) ∧
  TransitionSystem_eq (Hash_Edge := edge_hash) encoded smaller = Ok false.
Proof.
  assert (Hmiss : s1 ∉ Dict.keys (states_encoding smaller))
    by (apply (bool_decide_unpack _); vm_compute; exact I).
  split; [exact Hmiss|].
  destruct encoded_is_encoded_system as (Ho & Hnd & Hlen & _ & _).
  apply (eq_false_on_missing_state (Hash_Edge := edge_hash) encoded smaller
           (mkEdge (VCode 1) (VCode 2) 1) 2 s1 Ho eq_refl Hnd Hlen).
  - left.
  - by right.
  - reflexivity.
  - exact Hmiss.
Defined.

Lemma save_to_STORM_explicit_completes_once_witness :
  let w := mkWorld encoded [] no_directory in
  let w1 := (save_to_STORM_explicit (Str_State := State_str) "transitions" "labels" w).2 in
  let w2 := (save_to_STORM_explicit (Str_State := State_str)
               "missing/transitions" "labels" w1).2 in
  openable w "transitions" = true ∧
  has_outgoing_edges encoded 2 = false ∧
  has_outgoing_edges (system w1) 2 = true ∧
  system w2 = system w1.
Proof.
  intros w w1 w2.
  destruct (save_to_STORM_explicit_completes_once (Str_State := State_str) None None
              "transitions" "labels" "missing/transitions" "labels" w eq_refl)
    as [Hcov Hsame].
  split_and!; [reflexivity | reflexivity | | exact Hsame].
  apply (Hcov s1 2). right. left.
Defined.

End TransitionSystemMoreExamples.

(** * Further properties of the rate transformers *)

Section SetFacts.
Context {A : Type} `{EqDecision A}.
Implicit Types (l s : list A).

Lemma elem_of_set_add x y s : x ∈ set_add y s ↔ x ∈ s ∨ x = y.
Proof.
  unfold set_add. case_bool_decide.
  - split; [by left | intros [?| ->]; done].
  - rewrite elem_of_app, list_elem_of_singleton. done.
Qed.

Lemma set_add_NoDup y s : NoDup s → NoDup (set_add y s).
Proof.
  intros Hnd. unfold set_add. case_bool_decide; [done|].
  apply NoDup_app. split_and!; [done | | apply NoDup_singleton].
  intros x Hx. rewrite list_elem_of_singleton. by intros ->.
Qed.

Lemma elem_of_set_add_all x l s : x ∈ set_add_all l s ↔ x ∈ s ∨ x ∈ l.
Proof.
  unfold set_add_all. revert s. induction l as [|y l IH]; intros s; simpl.
  - rewrite elem_of_nil. tauto.
  - rewrite IH, elem_of_set_add, elem_of_cons. tauto.
Qed.

Lemma set_add_all_NoDup l s : NoDup s → NoDup (set_add_all l s).
Proof.
  unfold set_add_all. revert s. induction l as [|y l IH]; intros s Hnd; [done|].
  simpl. by apply IH, set_add_NoDup.
Qed.

Lemma set_add_all_app l l' s :
  set_add_all (l ++ l') s = set_add_all l' (set_add_all l s).
Proof. apply fold_left_app. Qed.

End SetFacts.

Section RateMore.
Import Rate.
Context {Complex Value : Type} `{EqDecision Complex} `{EqDecision Value}.
Variable compatible : Complex → Complex → bool.
Context {Str_object : Str (node (Complex := Complex) (Value := Value))}.
Variable ordering : list Complex.
Variable definitions : list (string * Value).
Variable reduce : Complex → Complex.

Abbreviation node' := (node (Complex := Complex) (Value := Value)).
Abbreviation vec' := (Vectorizer compatible ordering definitions).
Abbreviation vector' := (compatibility compatible ordering).
Abbreviation extractor := (Extractor (Complex := Complex) (Value := Value)).
Abbreviation reducer := (ContextReducer (Value := Value) reduce).
Abbreviation shape := (vectorised_shape (Complex := Complex) definitions).
Abbreviation reduced := (reduced reduce).
Abbreviation shaped := (shaped compatible ordering definitions).
Abbreviation second_pass := (second_pass compatible ordering definitions).

(** *** Extraction *)

Lemma extracted_children (children : list node') :
  Forall extracted children →
  forallb parsed children = true →
  ∀ st,
    sequence_M (List.map (transform_tree extractor) children) st
    = (Ok children,
       (set_add_all (Pattern <$> List.concat (List.map patterns children)) st.1,
        set_add_all (List.concat (List.map param_heads children)) st.2)).
Proof.
  induction 1 as [|t children Ht _ IH]; intros Hparsed st; simpl.
  - by destruct st.
  - simpl in Hparsed. apply andb_prop in Hparsed as [Hp Hps].
    unfold bind. rewrite (Ht st Hp), IH by done. simpl.
    by rewrite fmap_app, !set_add_all_app.
Qed.

Lemma extracted_tree (t : node') : extracted t.
Proof.
  induction t as [data children IH| | | |] using node_rect';
    try (intros [] _; reflexivity).
  intros st Hparsed. simpl in Hparsed.
  apply andb_prop in Hparsed as [Hps Hshape].
  simpl transform_tree. unfold bind at 1.
  rewrite (extracted_children children IH Hps st).
  simpl patterns. simpl param_heads. unfold Extractor.
  destruct (decide (data = "agent")) as [->|Hagent].
  - destruct children as [|[| |c| |] rest]; try done.
    rewrite decide_False by done. rewrite app_nil_r.
    unfold Extractor_agent, bind, item, modify, ret. simpl.
    rewrite fmap_app, set_add_all_app. reflexivity.
  - rewrite app_nil_r. destruct (decide (data = "param")) as [->|Hparam].
    + destruct children as [|n rest]; [done|].
      unfold Extractor_param, bind, item, modify, ret. simpl.
      rewrite !set_add_all_app. reflexivity.
    + by rewrite app_nil_r.
Qed.

(** X13. On an expression as the parser builds it,
    [get_params_and_agents] returns; the set of agents holds exactly the
    patterns of the agent nodes, the set of parameters exactly the first
    children of the parameter nodes, each once; and the rate keeps its
    expression. *)
Theorem get_params_and_agents_finds_all data (children : list node') :
  parsed (Tree data children) = true →
  ∃ agents params,
    get_params_and_agents (Tree data children)
    = (Ok (agents, params), Tree data children) ∧
    (∀ n, n ∈ agents ↔ ∃ c, n = Pattern c ∧ c ∈ patterns (Tree data children)) ∧
    (∀ n, n ∈ params ↔ n ∈ param_heads (Tree data children)) ∧
    NoDup agents ∧ NoDup params.
Proof.
  intros Hparsed. unfold get_params_and_agents, transform.
  rewrite (extracted_tree (Tree data children) ([], []) Hparsed).
  eexists _, _. split; [reflexivity|]. simpl fst. simpl snd. split_and!.
  - intros n. rewrite elem_of_set_add_all, elem_of_nil, list_elem_of_fmap.
    split; [intros [[]|(c & -> & Hc)]; eauto | intros (c & -> & Hc); eauto].
  - intros n. rewrite elem_of_set_add_all, elem_of_nil. tauto.
  - apply set_add_all_NoDup, NoDup_nil_2.
  - apply set_add_all_NoDup, NoDup_nil_2.
Qed.

(** *** Context reduction *)

Lemma reduced_children (children : list node') :
  Forall reduced children →
  forallb parsed children = true →
  forallb plain_agents children = true →
  ∃ children',
    sequence_M (List.map (transform_tree reducer) children) tt = (Ok children', tt) ∧
    forallb parsed children' = true ∧
    forallb plain_agents children' = true ∧
    List.concat (List.map patterns children')
    = reduce <$> List.concat (List.map patterns children) ∧
    length children' = length children ∧
    (∀ c, children = [Pattern c] → children' = [Pattern c]).
Proof.
  induction 1 as [|t children Ht _ IH]; intros Hparsed Hplain; simpl.
  - exists []. by split_and!.
  - simpl in Hparsed, Hplain.
    apply andb_prop in Hparsed as [Hp Hps]. apply andb_prop in Hplain as [Hq Hqs].
    destruct (Ht Hp Hq) as (t' & Hrun & Hp' & Hq' & Hpat & Hleaf).
    destruct (IH Hps Hqs) as (children' & Hrun' & Hps' & Hqs' & Hpats & Hlen & _).
    exists (t' :: children'). unfold bind. rewrite Hrun, Hrun'. split_and!.
    + done.
    + simpl. by rewrite Hp', Hps'.
    + simpl. by rewrite Hq', Hqs'.
    + simpl. by rewrite Hpat, Hpats, fmap_app.
    + simpl. by rewrite Hlen.
    + intros c [= -> ->]. rewrite Hleaf.
      destruct children'; [done | simpl in Hlen; lia].
Qed.

Lemma reduced_tree (t : node') : reduced t.
Proof.
  induction t as [data children IH| | | |] using node_rect';
    try (intros _ _; eexists; by split_and!).
  intros Hparsed Hplain. simpl in Hparsed, Hplain.
  apply andb_prop in Hparsed as [Hps Hshape].
  apply andb_prop in Hplain as [Hqs Hagents].
  destruct (reduced_children children IH Hps Hqs)
    as (children' & Hrun & Hps' & Hqs' & Hpats & Hlen & Hone).
  simpl transform_tree. unfold bind at 1. rewrite Hrun.
  simpl patterns. unfold ContextReducer.
  destruct (decide (data = "agent")) as [->|Hagent].
  - destruct children as [|[| |c| |] [|]]; try done.
    rewrite (Hone c eq_refl). eexists. split; [reflexivity|].
    split_and!; try done. by eexists _, _.
  - exists (Tree data children'). split; [done|]. split_and!.
    + simpl. rewrite Hps'. simpl. rewrite decide_False by done.
      by rewrite Hlen.
    + simpl. rewrite Hqs'. simpl. by rewrite decide_False.
    + simpl. rewrite decide_False by done. by rewrite !app_nil_r.
    + by eexists _, _.
Qed.

(** X14. On an expression as the parser builds it, whose agent nodes hold
    their pattern alone, [reduce_context] returns a new expression of the
    same kind whose agents hold, in the same order, the reduced patterns;
    the rate itself keeps its expression.  Vectorising the new expression
    then binds each agent to the vector of its reduced pattern. *)
Theorem reduce_context_reduces_patterns data (children : list node') :
  parsed (Tree data children) = true →
  plain_agents (Tree data children) = true →
  ∃ expression',
    reduce_context reduce (Tree data children) = (Ok expression', Tree data children) ∧
    parsed expression' = true ∧ plain_agents expression' = true ∧
    patterns expression' = reduce <$> patterns (Tree data children) ∧
    (vectorize compatible ordering definitions expression').1
    = Ok (vector' <$> (reduce <$> patterns (Tree data children))).
Proof.
  intros Hparsed Hplain.
  destruct (reduced_tree (Tree data children) Hparsed Hplain)
    as (t' & Hrun & Hp' & Hq' & Hpat & data' & children' & ->).
  exists (Tree data' children'). unfold reduce_context, transform. rewrite Hrun.
  split_and!; try done.
  destruct (transform_tree_parsed compatible ordering definitions
              (Tree data' children') [] Hp') as (t'' & Hvec & _).
  unfold vectorize, transform. rewrite Hvec, Hpat. reflexivity.
Qed.

(** *** The shape of a vectorised expression *)

Lemma forallb_lookup {B : Type} (f : B → bool) (l : list B) i x :
  forallb f l = true → l !! i = Some x → f x = true.
Proof.
  rewrite forallb_forall. intros Hall Hi. apply Hall.
  apply list_elem_of_In, list_elem_of_lookup. eauto.
Qed.

Lemma shaped_children (children : list node') :
  Forall shaped children →
  forallb parsed children = true →
  ∀ visited, ∃ children' visited',
    sequence_M (List.map (transform_tree vec') children) visited
    = (Ok children', visited') ∧
    forallb shape children' = true ∧
    length children' = length children ∧
    (∀ c rest, children = Pattern c :: rest → ∃ rest', children' = Pattern c :: rest').
Proof.
  induction 1 as [|t children Ht _ IH]; intros Hparsed visited; simpl.
  - exists [], visited. by split_and!.
  - simpl in Hparsed. apply andb_prop in Hparsed as [Hp Hps].
    destruct (Ht Hp visited) as (t' & v1 & Hrun & Hshape & Hleaf).
    destruct (IH Hps v1) as (children' & v2 & Hrun' & Hshapes & Hlen & _).
    exists (t' :: children'), v2. unfold bind. rewrite Hrun, Hrun'. split_and!.
    + done.
    + simpl. by rewrite Hshape, Hshapes.
    + simpl. by rewrite Hlen.
    + intros c rest [= -> ->]. rewrite Hleaf. by eexists.
Qed.

Lemma shaped_tree (t : node') : shaped t.
Proof.
  induction t as [data children IH| | | |] using node_rect';
    try (intros _ visited; eexists _, _; by split_and!).
  intros Hparsed visited. simpl in Hparsed.
  apply andb_prop in Hparsed as [Hps Hshape].
  destruct (shaped_children children IH Hps visited)
    as (children' & v1 & Hrun & Hshapes & Hlen & Hhead).
  simpl transform_tree. unfold bind at 1. rewrite Hrun. unfold Vectorizer.
  destruct (decide (data = "agent")) as [->|Hagent].
  - destruct children as [|[| |c| |] rest]; try done.
    destruct (Hhead c rest eq_refl) as (rest' & ->).
    rewrite Vectorizer_agent_run. eexists _, _. by split_and!.
  - destruct (decide (data = "rate_agent")) as [->|Hrate].
    + apply bool_decide_eq_true_1 in Hshape. rewrite <- Hlen in Hshape.
      destruct children' as [|a [|b rest]]; simpl in Hshape; try lia.
      exists b, v1. unfold Vectorizer_rate_agent. simpl. split_and!; [done| |done].
      by apply (forallb_lookup _ _ 1%nat b Hshapes).
    + destruct (decide (data = "param")) as [->|Hparam].
      * apply bool_decide_eq_true_1 in Hshape. rewrite <- Hlen in Hshape.
        destruct children' as [|a rest]; simpl in Hshape; try lia.
        unfold Vectorizer_param, bind. simpl.
        destruct (Dict.get (node_str a) definitions) as [v|] eqn:Hdef; simpl.
        -- eexists _, _. by split_and!.
        -- eexists _, _. split_and!; [done| |done].
           simpl in Hshapes. simpl. rewrite Hshapes. simpl.
           by apply bool_decide_eq_true_2.
      * exists (Tree data children'), v1. split_and!; [done| |done].
        simpl. rewrite Hshapes. simpl.
        by rewrite !decide_False.
Qed.

Lemma shape_param_nodes (t : node') :
  shape t = true →
  Forall (λ held, ∃ n, head held = Some n ∧
                       Dict.get (node_str n) definitions = None) (param_nodes t).
Proof.
  induction t as [data children IH| | | |] using node_rect';
    try (intros _; constructor).
  intros Hshape. simpl in Hshape. apply andb_prop in Hshape as [Hcs Hnode].
  simpl. apply Forall_app. split.
  - destruct (decide (data = "param")) as [->|]; [|constructor].
    simpl in Hnode. destruct children as [|n rest]; [done|].
    constructor; [|constructor]. exists n. split; [done|].
    by apply bool_decide_eq_true_1 in Hnode.
  - clear Hnode. induction IH as [|c cs Hc _ IHcs]; simpl; [constructor|].
    simpl in Hcs. apply andb_prop in Hcs as [Hc' Hcs].
    apply Forall_app. split; auto.
Qed.

(** X15. Vectorising an expression as the parser builds it stores the
    expression that the docstring describes: every agent holds the vector
    of its own pattern, every bracketed agent is replaced by its second
    child, every parameter that has a definition is replaced by the value
    of that definition, and all the rest is kept.  So in the result no
    bracketed agent is left, every agent node holds a vector, and every
    parameter node that is left has a first child whose name has no
    definition. *)
Theorem vectorize_binds_parameters data (children : list node') :
  parsed (Tree data children) = true →
  let expression' := vectorized compatible ordering definitions (Tree data children) in
  vectorize compatible ordering definitions (Tree data children)
  = (Ok (vector' <$> patterns (Tree data children)), expression') ∧
  shape expression' = true ∧
  Forall (λ held, ∃ n, head held = Some n ∧
                       Dict.get (node_str n) definitions = None)
    (param_nodes expression').
Proof.
  intros Hparsed expression'.
  pose proof (transform_tree_described compatible ordering definitions
                (Tree data children) Hparsed []) as Hrun.
  destruct (shaped_tree (Tree data children) Hparsed [])
    as (t' & visited & Hrun' & Hshape & _).
  rewrite Hrun in Hrun'. injection Hrun' as <- _.
  unfold vectorize, transform. rewrite Hrun.
  split_and!; [done | done | by apply shape_param_nodes].
Qed.

(** *** A second vectorisation *)

Lemma second_pass_children (children : list node') :
  Forall second_pass children →
  forallb shape children = true →
  ∀ visited,
    (List.concat (List.map agent_nodes children) = [] →
     ∃ children' visited',
       sequence_M (List.map (transform_tree vec') children) visited
       = (Ok children', visited') ∧ length children' = length children) ∧
    (List.concat (List.map agent_nodes children) ≠ [] →
     ∃ visited',
       sequence_M (List.map (transform_tree vec') children) visited
       = (Raise AttributeError, visited')).
Proof.
  induction 1 as [|t children Ht _ IH]; intros Hshape visited; simpl.
  - split; [intros _; by exists [], visited | done].
  - simpl in Hshape. apply andb_prop in Hshape as [Hs Hss].
    destruct (Ht Hs visited) as [Hok Hraise]. unfold bind.
    destruct (agent_nodes t) as [|held helds] eqn:Hagents.
    + destruct Hok as (t' & v1 & ->); [done|].
      destruct (IH Hss v1) as [Hoks Hraises]. simpl. split.
      * intros Hnone. destruct (Hoks Hnone) as (children' & v2 & -> & Hlen).
        exists (t' :: children'), v2. split; [done|]. simpl. by rewrite Hlen.
      * intros Hsome. destruct (Hraises Hsome) as (v2 & ->). by exists v2.
    + destruct Hraise as (v1 & ->); [done|]. split; [done|].
      intros _. by exists v1.
Qed.

Lemma second_pass_tree (t : node') : ordering ≠ [] → second_pass t.
Proof.
  intros Hordering.
  induction t as [data children IH| | | |] using node_rect';
    try (intros _ visited; split; [intros _; by eexists _, _ | done]).
  intros Hshape visited. simpl in Hshape.
  apply andb_prop in Hshape as [Hss Hnode].
  destruct (second_pass_children children IH Hss visited) as [Hoks Hraises].
  simpl transform_tree. simpl agent_nodes. unfold bind at 1 2. unfold Vectorizer in Hoks, Hraises |- *.
  destruct (decide (data = "agent")) as [->|Hagent].
  - destruct children as [|[| | |s|] [|]]; try done.
    split; [done|]. intros _. simpl.
    unfold Vectorizer_agent, bind, item, lift. simpl.
    destruct ordering as [|x rest]; [done|]. simpl. by eexists.
  - simpl. destruct (decide (data = "rate_agent")) as [->|Hrate]; [done|].
    split.
    + intros Hnone. destruct (Hoks Hnone) as (children' & v1 & -> & Hlen).
      destruct (decide (data = "param")) as [->|Hparam]; [|by eexists _, _].
      destruct children as [|n rest]; [done|].
      destruct children' as [|n' rest']; [done|].
      unfold Vectorizer_param, bind. simpl. by eexists _, _.
    + intros Hsome. destruct (Hraises Hsome) as (v1 & ->). by exists v1.
Qed.

(** X16. A rate is vectorised once: when the ordering holds a species and
    the vectorised expression holds an agent, a second call of [vectorize]
    raises and leaves the expression as the first call left it. *)
Theorem vectorize_twice_raises data (children : list node') visited expression' :
  parsed (Tree data children) = true →
  ordering ≠ [] →
  vectorize compatible ordering definitions (Tree data children)
  = (Ok visited, expression') →
  agent_nodes expression' ≠ [] →
  ∃ e, vectorize compatible ordering definitions expression'
       = (Raise e, expression').
Proof.
  intros Hparsed Hordering Hfirst Hagents.
  destruct (shaped_tree (Tree data children) Hparsed [])
    as (t' & v1 & Hrun & Hshape & _).
  unfold vectorize, transform in Hfirst. rewrite Hrun in Hfirst.
  injection Hfirst as <- <-.
  destruct (second_pass_tree t' Hordering Hshape []) as [_ Hraise].
  destruct (Hraise Hagents) as (v2 & Hsecond).
  exists AttributeError. unfold vectorize, transform.
  destruct t'; [|done..]. by rewrite Hsecond.
Qed.

End RateMore.

Section RateMoreExamples.
Import Rate Examples MoreExamples.

Lemma get_params_and_agents_finds_all_witness :
  parsed param_expression = true ∧
  get_params_and_agents param_expression
  = (Ok ([Pattern "KB"%string], [Token "NAME" "k1"; Token "NAME" "k2"]),
     param_expression).
Proof.
  destruct (get_params_and_agents_finds_all "rate" param_children eq_refl)
    as (agents & params & Hrun & _).
  split; reflexivity.
Defined.

Lemma reduce_context_reduces_patterns_witness :
  parsed param_expression = true ∧ plain_agents param_expression = true ∧
  ∃ expression',
    reduce_context first_letter param_expression = (Ok expression', param_expression) ∧
    parsed expression' = true ∧ plain_agents expression' = true ∧
    patterns expression' = first_letter <$> patterns param_expression ∧
    (vectorize (Str_object := node_repr) starts_with species3 bound expression').1
    = Ok (compatibility starts_with species3
            <$> (first_letter <$> patterns param_expression)).
Proof.
  split_and!; [reflexivity | reflexivity |].
  exact (reduce_context_reduces_patterns starts_with (Str_object := node_repr)
           species3 bound first_letter "rate" param_children eq_refl eq_refl).
Defined.

Lemma vectorize_binds_parameters_witness :
  parsed param_expression = true ∧
  Dict.get "k1"%string bound = Some 5 ∧ Dict.get "k2"%string bound = None ∧
  vectorized starts_with (Str_object := node_repr) species3 bound param_expression
  = param_vectorised ∧
  vectorize (Str_object := node_repr) starts_with species3 bound param_expression
  = (Ok [mkState [0; 1; 0] false], param_vectorised).
Proof.
  destruct (vectorize_binds_parameters starts_with (Str_object := node_repr)
              species3 bound "rate" param_children eq_refl)
    as (Hrun & _).
  split_and!; reflexivity.
Defined.

Lemma vectorize_twice_raises_witness :
  parsed param_expression = true ∧ species3 ≠ [] ∧
  vectorize (Str_object := node_repr) starts_with species3 bound param_expression
  = (Ok [mkState [0; 1; 0] false], param_vectorised) ∧
  agent_nodes param_vectorised ≠ [] ∧
  ∃ e, vectorize (Str_object := node_repr) starts_with species3 bound param_vectorised
       = (Raise e, param_vectorised).
Proof.
  split_and!; [reflexivity | done | reflexivity | done |].
  exact (vectorize_twice_raises starts_with (Str_object := node_repr)
           species3 bound "rate" param_children [mkState [0; 1; 0] false]
           param_vectorised eq_refl ltac:(done) eq_refl ltac:(done)).
Defined.

End RateMoreExamples.

(** * Iteration over the edges and the export to PRISM *)

Section GroupbyFacts.
Context {A K : Type} `{EqDecision K}.
Variable key : A → K.

Lemma groupby_concat (l : list A) : concat (snd <$> groupby key l) = l.
Proof.
  induction l as [|x l IH]; [done|]. simpl.
  destruct (groupby key l) as [|[k group] groups]; simpl in *.
  - by rewrite <- IH.
  - destruct (decide (key x = k)); simpl; by rewrite <- IH.
Qed.

Lemma groupby_runs (l : list A) :
  Forall (λ kg, ∃ x, head kg.2 = Some x ∧ Forall (λ y, key y = kg.1) kg.2)
    (groupby key l).
Proof.
  induction l as [|x l IH]; simpl; [constructor|].
  destruct (groupby key l) as [|[k group] groups].
  - constructor; [|constructor]. exists x. split; [done|]. by constructor.
  - apply Forall_cons in IH as [(y & Hy & Hgroup) IH]. simpl in *.
    destruct (decide (key x = k)) as [Hk|Hk].
    + constructor; [|done]. exists x. split; [done|]. by constructor.
    + constructor; [|by constructor; [exists y|]].
      exists x. split; [done|]. by constructor.
Qed.

Lemma groupby_maximal (l : list A) i kg kg' :
  groupby key l !! i = Some kg → groupby key l !! S i = Some kg' → kg.1 ≠ kg'.1.
Proof.
  revert i kg kg'. induction l as [|x l IH]; intros i kg kg'; simpl; [done|].
  destruct (groupby key l) as [|[k group] groups] eqn:Hl.
  - by destruct i.
  - destruct (decide (key x = k)) as [Hk|Hk].
    + destruct i as [|i].
      * simpl. intros [= <-] Hnext. simpl.
        by apply (IH 0%nat (k, group) kg').
      * simpl. intros Hi Hnext. by apply (IH (S i) kg kg').
    + destruct i as [|i].
      * simpl. by intros [= <-] [= <-].
      * simpl. intros Hi Hnext. by apply (IH i kg kg').
Qed.

End GroupbyFacts.

Section PrismFacts.
Context {Complex : Type} {P : Type} `{Number P} {Str_State : Str State}.
Context {Str_Complex : Str Complex}.
Variable sorted_edges : list (Edge P) → list (Edge P).
Variable State_to_PRISM_string : State → result string.
Variable Edge_to_PRISM_string : Edge P → list (Z * State) → result string.
Implicit Types (ts : TransitionSystem Complex P) (w : World (Complex := Complex) (P := P)).

Abbreviation save_to_prism' :=
  (save_to_prism sorted_edges State_to_PRISM_string Edge_to_PRISM_string).

(** X17. Iterating a transition system yields the sorted edges cut into
    their runs of equal source: the lists are not empty, the edges of a
    list share their source, two lists in a row differ in it, and the lists
    together are the sorted edges, none dropped and none repeated. *)
Theorem iter_yields_runs ts :
  let groups := TransitionSystem_iter sorted_edges ts in
  concat groups = sorted_edges (edges ts) ∧
  Forall (λ group, ∃ first, head group = Some first ∧
                            Forall (λ e, source e = source first) group) groups ∧
  ∀ i group group' e e',
    groups !! i = Some group → groups !! S i = Some group' →
    e ∈ group → e' ∈ group' → source e ≠ source e'.
Proof.
  intros groups. unfold groups, TransitionSystem_iter. clear groups.
  pose proof (groupby_runs source (sorted_edges (edges ts))) as Hruns.
  split_and!.
  - apply groupby_concat.
  - apply Forall_fmap. eapply Forall_impl; [exact Hruns|].
    intros [k group] (first & Hfirst & Hgroup). simpl in *.
    exists first. split; [done|].
    assert (source first = k) as ->; [|done].
    destruct group as [|e group]; [done|]. simplify_eq/=.
    by apply Forall_cons in Hgroup as [? _].
  - intros i group group' e e' Hi Hi' He He'.
    rewrite list_lookup_fmap in Hi, Hi'.
    destruct (groupby source (sorted_edges (edges ts)) !! i) as [kg|] eqn:Hkg; [|done].
    destruct (groupby source (sorted_edges (edges ts)) !! S i) as [kg'|] eqn:Hkg'; [|done].
    simpl in Hi, Hi'. simplify_eq.
    pose proof (groupby_maximal source _ i kg kg' Hkg Hkg') as Hne.
    rewrite Forall_forall in Hruns.
    destruct (Hruns kg) as (_ & _ & Hall); [by eapply list_elem_of_lookup_2|].
    destruct (Hruns kg') as (_ & _ & Hall'); [by eapply list_elem_of_lookup_2|].
    rewrite Forall_forall in Hall, Hall'.
    by rewrite (Hall e He), (Hall' e' He').
Qed.

Lemma append_assoc (a b c : string) : (a +:+ b) +:+ c = a +:+ (b +:+ c).
Proof.
  induction a as [|x a IH]; [reflexivity|].
  change (String x ((a +:+ b) +:+ c) = String x (a +:+ (b +:+ c))). by f_equal.
Qed.

Lemma append_empty (a : string) : a +:+ EmptyString = a.
Proof.
  induction a as [|x a IH]; [reflexivity|].
  change (String x (a +:+ EmptyString) = String x a). by f_equal.
Qed.

Lemma decoding_get_None ts (code : Z) :
  code ∉ Dict.values (states_encoding ts) →
  Dict.get code (create_decoding ts) = None.
Proof.
  intros Hcode. destruct (Dict.get code (create_decoding ts)) as [s|] eqn:Hget; [|done].
  exfalso. apply Hcode. unfold create_decoding, Dict.of_items in Hget.
  apply get_fold_set_Some in Hget as [Hin|?]; [|done].
  apply list_elem_of_fmap in Hin as ([s' c'] & [= -> ->] & Hin).
  by apply (list_elem_of_fmap_2 snd) in Hin.
Qed.

(** What a call does: the file is opened and written as far as the call
    gets. *)
Lemma save_to_prism_run path bound params formulas w :
  save_to_prism' path bound params formulas w
  = if openable w path then
      let decoding := create_decoding (system w) in
      let written text := mkWorld (system w) (Dict.set path text (files w)) (openable w) in
      match init (system w) ≫= λ code, Dict.get code decoding with
      | None => (Raise KeyError, written (prism_head params))
      | Some state =>
          match traverse (λ i_species, declare_variable bound state i_species.1 i_species.2)
                  (imap pair (ordering (system w))) with
          | Raise e => (Raise e, written (prism_head params))
          | Ok vars =>
              let text := prism_head params +:+ (newline +:+ join newline vars +:+ newline) in
              match edges_to_PRISM sorted_edges State_to_PRISM_string Edge_to_PRISM_string
                      decoding (system w) with
              | Raise e => (Raise e, written text)
              | Ok transitions =>
                  (Ok tt,
                   written (((text +:+ (newline +:+ join newline transitions))
                               +:+ (newline +:+ "endmodule" +:+ newline))
                              +:+ (newline +:+ join newline formulas)))
              end
          end
      end
    else (Raise OSError, w).
Proof.
  unfold save_to_prism.
  unfold bind at 1, get at 1.
  unfold bind at 1, open_w at 1.
  destruct (openable w path) eqn:Hopen; [|done].
  unfold bind at 1, write at 1, modify at 1. simpl files. simpl system. simpl openable.
  rewrite get_set_eq, set_set. simpl default.
  unfold bind at 1, write at 1, modify at 1. simpl files. simpl system. simpl openable.
  rewrite get_set_eq, set_set. simpl default. fold (prism_head params).
  unfold bind at 1.
  destruct (init (system w) ≫= _) as [state|]; simpl item; [|done].
  unfold ret at 1. unfold bind at 1, returned at 1.
  destruct (traverse _ (imap pair _)) as [vars|e]; [|done].
  unfold bind at 1, write at 1, modify at 1. simpl files. simpl system. simpl openable.
  rewrite get_set_eq, set_set. simpl default.
  unfold bind at 1, returned at 1.
  destruct (edges_to_PRISM _ _ _ _ _) as [transitions|e]; [|done].
  unfold bind at 1, write at 1, modify at 1. simpl files. simpl system. simpl openable.
  rewrite get_set_eq, set_set. simpl default.
  unfold bind at 1, write at 1, modify at 1. simpl files. simpl system. simpl openable.
  rewrite get_set_eq, set_set. simpl default.
  unfold write, modify. simpl files. simpl system. simpl openable.
  by rewrite get_set_eq, set_set.
Qed.

Lemma declare_variables bound state (l : list Complex) (k : nat) :
  (k + length l ≤ State_len state)%nat →
  traverse (λ i_species, declare_variable bound state i_species.1 i_species.2)
    (imap (λ i, pair (k + i)%nat) l)
  = Ok (imap (λ i species,
                tab +:+ "VAR_" +:+ str (Z.of_nat (k + i)) +:+ " : [0.." +:+ str (bound + 1)
                +:+ "] init " +:+ str (nth (k + i) (sequence state) 0) +:+ "; // "
                +:+ str species) l).
Proof.
  revert k. induction l as [|x l IH]; intros k Hlen; [done|].
  simpl in Hlen. rewrite !imap_cons. simpl traverse.
  unfold declare_variable at 1. simpl fst. simpl snd.
  destruct (sequence state !! (k + 0)%nat) as [value|] eqn:Hvalue.
  - rewrite (imap_ext _ (λ i, pair (S k + i)%nat) l), (IH (S k)); [|lia|].
    + f_equal. f_equal.
      * by rewrite (nth_lookup_Some _ _ 0 value Hvalue).
      * apply imap_ext. intros i y _. simpl.
        by replace (k + S i)%nat with (S (k + i)) by lia.
    + intros i y _. simpl. f_equal. lia.
  - apply lookup_ge_None in Hvalue. unfold State_len in Hlen. lia.
Qed.

(** X18. A system that is not encoded cannot be exported: when [init]
    holds no code of the encoding (as the constructor leaves it),
    [save_to_prism] raises.  On a path that cannot be opened it raises
    [OSError] and nothing is changed; otherwise it raises [KeyError], the
    file then holds the header and the declarations of the parameters and
    nothing else, and the system is as it was. *)
Theorem save_to_prism_needs_encoding path bound params formulas w :
  (∀ code, init (system w) = Some code →
           code ∉ Dict.values (states_encoding (system w))) →
  save_to_prism' path bound params formulas w
  = if openable w path
    then (Raise KeyError,
          mkWorld (system w) (Dict.set path (prism_head params) (files w)) (openable w))
    else (Raise OSError, w).
Proof.
  intros Hinit. rewrite save_to_prism_run.
  destruct (openable w path); [|done]. simpl.
  destruct (init (system w)) as [code|]; simpl; [|done].
  by rewrite decoding_get_None by auto.
Qed.

(** X19. After an [encode] that returns, on a system whose codes were 1,
    ..., k, an export to a path that can be opened finds the initial
    state: whatever becomes of the transitions, the file starts with the
    header, the declarations of the parameters and one declaration per
    species of the ordering, with the range [0..bound+1] and the coordinate
    of the initial state as initial value; the export does not change the
    system. *)
Theorem save_to_prism_declares_init
    it init_state ts ts' path bound params formulas fs can_open :
  canonical (states_encoding ts) → NoDup it →
  (length (ordering ts) ≤ State_len init_state)%nat →
  encode it init_state ts = (Ok tt, ts') →
  can_open path = true →
  ∃ r rest,
    save_to_prism' path bound params formulas (mkWorld ts' fs can_open)
    = (r, mkWorld ts'
            (Dict.set path
               ((prism_head params
                   +:+ (newline
                          +:+ join newline (variable_lines bound init_state (ordering ts))
                          +:+ newline))
                  +:+ rest)
               fs)
            can_open).
Proof.
  intros Hcan Hit Hlen Hrun Hopen. rewrite encode_run in Hrun. simpl in Hrun.
  destruct (Dict.get init_state (encode_states it (states_encoding ts)))
    as [code|] eqn:Hcode; [|done].
  destruct (encode_each _ (edges ts)) as [r es] eqn:Hes.
  injection Hrun as -> <-.
  rewrite save_to_prism_run. simpl. rewrite Hopen.
  set (ts' := mkTS _ es _ _ _ _).
  assert (Hdec : Dict.get code (create_decoding ts') = Some init_state).
  { apply decoding_get.
    - simpl. rewrite encode_states_spec by apply Hit || apply Hcan.
      by apply canonical_values_NoDup, canonical_extend.
    - by apply get_Some_elem. }
  rewrite Hdec.
  assert (Hvars :
    traverse (λ i_species, declare_variable bound init_state i_species.1 i_species.2)
      (imap pair (ordering ts))
    = Ok (variable_lines bound init_state (ordering ts)))
    by exact (declare_variables bound init_state (ordering ts) 0 Hlen).
  rewrite Hvars.
  destruct (edges_to_PRISM _ _ _ _ _) as [transitions|e].
  - eexists _, _. by rewrite !append_assoc.
  - exists (Raise e), EmptyString. by rewrite append_empty.
Qed.

End PrismFacts.

Section PrismExamples.
Import Examples ExportExamples.

Lemma save_to_prism_needs_encoding_witness :
  init building = None ∧
  save_to_prism (Str_Complex := species_str) listed guard update
    "model.pm" 5 ["k1"; "k2"]%string [] (mkWorld building [] no_directory)
  = (Raise KeyError,
     mkWorld building [("model.pm"%string, prism_head ["k1"; "k2"]%string)] no_directory) ∧
  save_to_prism (Str_Complex := species_str) listed guard update
    "missing/model.pm" 5 ["k1"; "k2"]%string [] (mkWorld building [] no_directory)
  = (Raise OSError, mkWorld building [] no_directory).
Proof.
  split_and!; [reflexivity | |].
  - exact (save_to_prism_needs_encoding (Str_Complex := species_str) listed guard update
             "model.pm" 5 ["k1"; "k2"]%string [] (mkWorld building [] no_directory)
             ltac:(intros code; discriminate)).
  - exact (save_to_prism_needs_encoding (Str_Complex := species_str) listed guard update
             "missing/model.pm" 5 ["k1"; "k2"]%string [] (mkWorld building [] no_directory)
             ltac:(intros code; discriminate)).
Defined.

Lemma save_to_prism_declares_init_witness :
  canonical (states_encoding building) ∧ NoDup [s0; s1] ∧
  (length (ordering building) ≤ State_len s0)%nat ∧
  encode [s0; s1] s0 building = (Ok tt, encoded) ∧
  no_directory "model.pm" = true ∧
  ∃ r rest,
    save_to_prism (Str_Complex := species_str) listed guard update
      "model.pm" 5 ["k1"]%string [] (mkWorld encoded [] no_directory)
    = (r, mkWorld encoded
            (Dict.set "model.pm"%string
               ((prism_head ["k1"]%string
                   +:+ (newline
                          +:+ join newline
                                (variable_lines (Str_Complex := species_str) 5 s0
                                   (ordering building))
                          +:+ newline))
                  +:+ rest)
               [])
            no_directory).
Proof.
  assert (Hcan : canonical (states_encoding building)).
  { split; [apply NoDup_nil_2 | reflexivity]. }
  assert (Hit : NoDup [s0; s1]).
  { apply (bool_decide_unpack _). vm_compute. exact I. }
  assert (Hlen : (length (ordering building) ≤ State_len s0)%nat).
  { vm_compute. lia. }
  split_and!; [exact Hcan | exact Hit | exact Hlen | reflexivity | reflexivity |].
  exact (save_to_prism_declares_init (Str_Complex := species_str) listed guard update
           [s0; s1] s0 building encoded "model.pm" 5 ["k1"]%string [] [] no_directory
           Hcan Hit Hlen eq_refl eq_refl).
Defined.

End PrismExamples.

(** * Labels for the complexes of a formula *)
Section ComplexLabelsFacts.
Context {Complex : Type} `{EqDecision Complex}.
Variable to_PRISM_code : Complex → nat → string.
Variable identify_compatible : Complex → list Complex → list nat.
Implicit Types (complexes ordering : list Complex) (labels : list (Complex * string)).

Abbreviation labels_of := (create_complex_labels to_PRISM_code identify_compatible).
Abbreviation label_of := (complex_label to_PRISM_code identify_compatible).

Lemma first_index_None (c : Complex) ordering :
  first_index c ordering = None ↔ c ∉ ordering.
Proof.
  unfold first_index. rewrite fmap_None, list_find_None, Forall_forall.
  split.
  - intros Hall Hc. by apply (Hall c).
  - intros Hc y Hy ->. done.
Qed.

(** The loop of [create_complex_labels], from any labels and formulas. *)
Lemma create_complex_labels_loop complexes ordering labels (formulas : list string) :
  let result :=
    fold_left
      (λ acc complex,
         match first_index complex ordering with
         | Some number => (Dict.set complex (to_PRISM_code complex number) acc.1, acc.2)
         | None =>
             let indices := identify_compatible complex ordering in
             (Dict.set complex (abstract_label indices) acc.1,
              acc.2 ++ [abstract_formula indices])
         end)
      complexes (labels, formulas) in
  (∀ c, c ∈ complexes → Dict.get c result.1 = Some (label_of ordering c)) ∧
  (∀ c, c ∉ complexes → Dict.get c result.1 = Dict.get c labels) ∧
  (NoDup (Dict.keys labels) → NoDup (Dict.keys result.1)) ∧
  result.2 = formulas ++ ((λ c, abstract_formula (identify_compatible c ordering))
                            <$> filter (λ c, c ∉ ordering) complexes).
Proof.
  revert labels formulas. induction complexes as [|x complexes IH];
    intros labels formulas; simpl.
  - split_and!; [by intros c ?%elem_of_nil | done | done | by rewrite app_nil_r].
  - set (acc := match first_index x ordering with Some _ => _ | None => _ end).
    destruct (IH acc.1 acc.2) as (Hin & Hout & Hnd & Hformulas).
    rewrite <- surjective_pairing in Hin, Hout, Hnd, Hformulas.
    assert (Hx : Dict.get x acc.1 = Some (label_of ordering x)).
    { unfold acc, complex_label. destruct (first_index x ordering); apply get_set_eq. }
    assert (Hother : ∀ c, c ≠ x → Dict.get c acc.1 = Dict.get c labels).
    { intros c Hc. unfold acc.
      destruct (first_index x ordering); simpl; by apply get_set_ne. }
    split_and!.
    + intros c Hc. destruct (decide (c ∈ complexes)) as [Hc'|Hc']; [by apply Hin|].
      apply elem_of_cons in Hc as [->|Hc]; [|done]. by rewrite Hout.
    + intros c Hc. apply not_elem_of_cons in Hc as [Hne Hc].
      rewrite Hout by done. by apply Hother.
    + intros Hlabels. apply Hnd. unfold acc.
      destruct (first_index x ordering); simpl; by apply keys_set_NoDup.
    + etrans; [exact Hformulas|]. unfold acc.
      destruct (first_index x ordering) as [number|] eqn:Hfirst; simpl.
      * rewrite filter_cons_False; [done|].
        intros Hx'. apply first_index_None in Hx'. congruence.
      * rewrite filter_cons_True by by apply first_index_None.
        by rewrite <- app_assoc.
Qed.

(** X20. [create_complex_labels] gives every complex of the formula one
    label, and no label to anything else: a complex of the ordering gets
    the code of its first position, any other complex the label made of its
    compatible positions.  The formulas are added per occurrence: an
    abstract complex that occurs twice in [complexes] has its formula
    twice. *)
Theorem create_complex_labels_covers complexes ordering :
  let result := labels_of complexes ordering in
  (∀ c, c ∈ complexes → Dict.get c result.1 = Some (label_of ordering c)) ∧
  (∀ c, c ∉ complexes → Dict.get c result.1 = None) ∧
  NoDup (Dict.keys result.1) ∧
  result.2 = (λ c, abstract_formula (identify_compatible c ordering))
               <$> filter (λ c, c ∉ ordering) complexes.
Proof.
  destruct (create_complex_labels_loop complexes ordering [] [])
    as (Hin & Hout & Hnd & Hformulas).
  split_and!; [exact Hin | exact Hout | | exact Hformulas].
  apply Hnd, NoDup_nil_2.
Qed.

(** X21. The label of an abstract complex is made of the digits of its
    compatible positions without a separator, so it does not identify
    them: two complexes outside the ordering whose positions print to the
    same digits get the same label. *)
Theorem abstract_labels_collide complexes ordering c c' :
  c ∈ complexes → c' ∈ complexes → c ∉ ordering → c' ∉ ordering →
  join EmptyString ((λ i, str (Z.of_nat i)) <$> identify_compatible c ordering)
  = join EmptyString ((λ i, str (Z.of_nat i)) <$> identify_compatible c' ordering) →
  ∃ label, Dict.get c (labels_of complexes ordering).1 = Some label ∧
           Dict.get c' (labels_of complexes ordering).1 = Some label.
Proof.
  intros Hc Hc' Hout Hout' Hdigits.
  destruct (create_complex_labels_loop complexes ordering [] []) as (Hin & _).
  exists (label_of ordering c). split; [by apply Hin|].
  etrans; [exact (Hin c' Hc')|]. f_equal. unfold complex_label.
  apply first_index_None in Hout, Hout'. rewrite Hout, Hout'.
  unfold abstract_label. by rewrite Hdigits.
Qed.

End ComplexLabelsFacts.

Section ComplexLabelsExamples.
Import ExportExamples.

Lemma abstract_labels_collide_witness :
  create_complex_labels code compatible_positions ["x"; "y"]%string species13
  = ([("x"%string, "ABSTRACT_VAR_112"%string); ("y"%string, "ABSTRACT_VAR_112"%string)],
     ["ABSTRACT_VAR_112 = VAR_1+VAR_12"%string; "ABSTRACT_VAR_112 = VAR_11+VAR_2"%string]) ∧
  ∃ label,
    Dict.get "x"%string
      (create_complex_labels code compatible_positions ["x"; "y"]%string species13).1
    = Some label ∧
    Dict.get "y"%string
      (create_complex_labels code compatible_positions ["x"; "y"]%string species13).1
    = Some label.
Proof.
  split; [reflexivity|].
  apply (abstract_labels_collide code compatible_positions ["x"; "y"]%string species13
           "x"%string "y"%string).
  - apply (bool_decide_unpack _). vm_compute. exact I.
  - apply (bool_decide_unpack _). vm_compute. exact I.
  - apply (bool_decide_unpack _). vm_compute. exact I.
  - apply (bool_decide_unpack _). vm_compute. exact I.
  - reflexivity.
Defined.

End ComplexLabelsExamples.
